(** * Genealogy network and contact edit dialog: a shallow embedding

    The development follows [src/components/GenealogyNetwork.tsx] (the
    derivation of the referral graph, the connected/standby partition, the
    visibility filter and the expansion toggle) and the [handleSave] handler
    of [EditContactDialog].

    JavaScript values are modelled as follows: a [string | null | undefined]
    field is an [option string] and its truthiness is [truthy]; a [number]
    that only ever holds a count is a [Z]; a [Set] is a [gset]; a [Map] is a
    [gmap]; an array is a [list].  The two recursive helpers of the source
    are not structurally recursive, so they take a recursion budget and
    answer [None] when it is exhausted, which stands for the unbounded
    recursion of the source. *)

From Stdlib Require Import List ZArith String Bool Lia Relations.
From Stdlib Require Import QArith Qabs Lqa.
From stdpp Require Import gmap strings.
Import ListNotations.

Local Close Scope Q_scope.
Local Open Scope string_scope.
Local Open Scope list_scope.

(** ** JavaScript helpers *)

(** Truthiness of a [string | null | undefined] value. *)
Definition truthy (v : option string) : bool :=
  match v with
  | Some s => negb (String.eqb s "")
  | None => false
  end.

(** [v || null]. *)
Definition orNull (v : option string) : option string :=
  if truthy v then v else None.

(** [v || d] for a string default [d]. *)
Definition orElse (v : option string) (d : string) : string :=
  match v with
  | Some s => if String.eqb s "" then d else s
  | None => d
  end.

(** [v || false] for a [boolean | null | undefined] value. *)
Definition orFalse (v : option bool) : bool :=
  match v with
  | Some b => b
  | None => false
  end.

(** [v === s] where [v] may be null and [s] is a string. *)
Definition strictEq (v : option string) (s : string) : bool :=
  match v with
  | Some x => String.eqb x s
  | None => false
  end.

Module GenealogyNetwork.

(** ** Data model *)

(** A contact record as delivered by the contacts hook (the fields the
    component reads). *)
Record Contact := {
  c_id : string;
  c_name : string;
  c_whatsapp : option string;
  c_neighborhood : option string;
  c_status : string;
  c_cell_id : option string;
  c_referred_by : option string;
  c_baptized : option bool;
  c_encounter_with_god : option bool;
  c_photo_url : option string
}.

(** A cell record as delivered by the cells hook. *)
Record Cell := {
  cell_id : string;
  cell_name : option string;
  cell_leader_name : option string
}.

(** [interface MemberNode]. *)
Record MemberNode := {
  id : string;
  name : string;
  leader : string;
  cell : string;
  status : string;
  referredBy : option string;
  referrals : list string;
  whatsapp : option string;
  neighborhood : option string;
  baptized : bool;
  encounterWithGod : bool;
  level : Z;
  totalDescendants : Z;
  photo_url : option string
}.

Definition set_referrals (m : MemberNode) (r : list string) : MemberNode :=
  {| id := id m; name := name m; leader := leader m; cell := cell m;
     status := status m; referredBy := referredBy m; referrals := r;
     whatsapp := whatsapp m; neighborhood := neighborhood m;
     baptized := baptized m; encounterWithGod := encounterWithGod m;
     level := level m; totalDescendants := totalDescendants m;
     photo_url := photo_url m |}.

Definition set_level (m : MemberNode) (l : Z) : MemberNode :=
  {| id := id m; name := name m; leader := leader m; cell := cell m;
     status := status m; referredBy := referredBy m; referrals := referrals m;
     whatsapp := whatsapp m; neighborhood := neighborhood m;
     baptized := baptized m; encounterWithGod := encounterWithGod m;
     level := l; totalDescendants := totalDescendants m;
     photo_url := photo_url m |}.

Definition set_totalDescendants (m : MemberNode) (t : Z) : MemberNode :=
  {| id := id m; name := name m; leader := leader m; cell := cell m;
     status := status m; referredBy := referredBy m; referrals := referrals m;
     whatsapp := whatsapp m; neighborhood := neighborhood m;
     baptized := baptized m; encounterWithGod := encounterWithGod m;
     level := level m; totalDescendants := t;
     photo_url := photo_url m |}.

(** ** Member projection *)

(** [new Map(cells.map(cell => [cell.id, cell]))]: a later entry with the
    same key replaces an earlier one. *)
Definition cellsMap (cells : list Cell) : gmap string Cell :=
  fold_left (fun acc c => <[cell_id c := c]> acc) cells ∅.

(** The body of [contacts.map(contact => ...)]. *)
Definition toMember (cm : gmap string Cell) (contact : Contact) : MemberNode :=
  let cell_ :=
    match c_cell_id contact with
    | Some k => if truthy (Some k) then cm !! k else None
    | None => None
    end in
  {| id := c_id contact;
     name := c_name contact;
     leader := orElse (cell_ ≫= cell_leader_name) "Sem líder";
     cell := orElse (cell_ ≫= cell_name) "Sem célula";
     status := c_status contact;
     referredBy := orNull (c_referred_by contact);
     referrals := [];
     whatsapp := c_whatsapp contact;
     neighborhood := c_neighborhood contact;
     baptized := orFalse (c_baptized contact);
     encounterWithGod := orFalse (c_encounter_with_god contact);
     level := 0;
     totalDescendants := 0;
     photo_url := orNull (c_photo_url contact) |}.

Definition projectMembers (contacts : list Contact) (cells : list Cell)
  : list MemberNode :=
  List.map (toMember (cellsMap cells)) contacts.

(** ** Graph deriver *)

(** [members.find(m => m.id === memberId)]. *)
Definition findMember (memberId : string) (members : list MemberNode)
  : option MemberNode :=
  List.find (fun m => String.eqb (id m) memberId) members.

(** [function calculateMemberLevel(memberId, members)]. *)
Fixpoint calculateMemberLevel (fuel : nat) (memberId : string)
    (members : list MemberNode) : option Z :=
  match fuel with
  | O => None
  | S fuel' =>
    match findMember memberId members with
    | None => Some 0%Z
    | Some member =>
      match referredBy member with
      | None => Some 0%Z
      | Some r =>
        if String.eqb r "" then Some 0%Z
        else
          match calculateMemberLevel fuel' r members with
          | Some l => Some (1 + l)%Z
          | None => None
          end
      end
    end
  end.

(** [function calculateTotalDescendants(memberId, members)]; the inner
    [forEach] is the [fold_left] over the referral list. *)
Fixpoint calculateTotalDescendants (fuel : nat) (memberId : string)
    (members : list MemberNode) : option Z :=
  match fuel with
  | O => None
  | S fuel' =>
    match findMember memberId members with
    | None => Some 0%Z
    | Some member =>
      fold_left
        (fun total childId =>
           match total, calculateTotalDescendants fuel' childId members with
           | Some t, Some d => Some (t + d)%Z
           | _, _ => None
           end)
        (referrals member)
        (Some (Z.of_nat (length (referrals member))))
    end
  end.

(** [allMembers.filter(m => m.referredBy === member.id).map(m => m.id)]. *)
Definition referralsOf (memberId : string) (members : list MemberNode)
  : list string :=
  List.map id (List.filter (fun m => strictEq (referredBy m) memberId) members).

(** The [allMembers.forEach(member => ...)] loop.  The array is mutated in
    place while it is traversed: [visited] holds the members already visited
    (with their three derived fields assigned), [todo] the members still to
    visit (with the fields of the projection), and every read of
    [allMembers] inside the body sees [visited ++ todo] as it is at that
    moment. *)
Fixpoint fillMembers (fuel : nat) (visited todo : list MemberNode)
  : option (list MemberNode) :=
  match todo with
  | [] => Some visited
  | member :: rest =>
    let member1 :=
      set_referrals member (referralsOf (id member) (visited ++ member :: rest)) in
    match calculateMemberLevel fuel (id member1) (visited ++ member1 :: rest) with
    | None => None
    | Some l =>
      let member2 := set_level member1 l in
      match calculateTotalDescendants fuel (id member2) (visited ++ member2 :: rest) with
      | None => None
      | Some t =>
        fillMembers fuel (visited ++ [set_totalDescendants member2 t]) rest
      end
    end
  end.

(** [allMembers] after the loop. *)
Definition allMembers (fuel : nat) (contacts : list Contact) (cells : list Cell)
  : option (list MemberNode) :=
  fillMembers fuel [] (projectMembers contacts cells).

(** ** Partitioner *)

Definition isConnected (member : MemberNode) : bool :=
  truthy (referredBy member) || (0 <? length (referrals member))%nat.

Definition isStandby (member : MemberNode) : bool :=
  negb (truthy (referredBy member)) && (length (referrals member) =? 0)%nat.

Definition connectedOf (members : list MemberNode) : list MemberNode :=
  List.filter isConnected members.

Definition standbyOf (members : list MemberNode) : list MemberNode :=
  List.filter isStandby members.

(** The first [useMemo]: both lists are empty while either hook is loading
    or when there is no contact. *)
Definition processMembers (fuel : nat) (contactsLoading cellsLoading : bool)
    (contacts : list Contact) (cells : list Cell)
  : option (list MemberNode * list MemberNode) :=
  if contactsLoading || cellsLoading || (length contacts =? 0)%nat
  then Some ([], [])
  else
    match allMembers fuel contacts cells with
    | Some ms => Some (connectedOf ms, standbyOf ms)
    | None => None
    end.

(** ** Visibility filter *)

(** [function getLevelColor(level)]: [colors[level] || colors[5]]. *)
Definition getLevelColor (level : Z) : string :=
  if (level =? 0)%Z then "#8B5CF6"
  else if (level =? 1)%Z then "#3B82F6"
  else if (level =? 2)%Z then "#10B981"
  else if (level =? 3)%Z then "#F59E0B"
  else if (level =? 4)%Z then "#EF4444"
  else "#6B7280".

(** The two opacities an edge is drawn with ([1] and [0.3]). *)
Inductive Opacity := Full | Dimmed.

(** An edge of the diagram (the constant style fields are left out). *)
Record Edge := {
  edge_id : string;
  source : string;
  target : string;
  stroke : string;
  opacity : Opacity
}.

(** The callback of [connectedMembers.filter(member => ...)] that selects
    the visible members. *)
Definition isVisible (visibleLevels : gset Z) (expandedNodes : gset string)
    (focusedLevel : option Z) (member : MemberNode) : bool :=
  let shouldShowByLevel := bool_decide (level member ∈ visibleLevels) in
  let shouldShowByExpansion :=
    (level member =? 0)%Z
    || bool_decide (id member ∈ expandedNodes)
    || match referredBy member with
       | Some r => truthy (Some r) && bool_decide (r ∈ expandedNodes)
       | None => false
       end in
  match focusedLevel with
  | Some f => (level member =? f)%Z
  | None => shouldShowByLevel && shouldShowByExpansion
  end.

Definition visibleMembersOf (visibleLevels : gset Z) (expandedNodes : gset string)
    (focusedLevel : option Z) (connectedMembers : list MemberNode)
  : list MemberNode :=
  List.filter (isVisible visibleLevels expandedNodes focusedLevel) connectedMembers.

(** The body of [visibleMembers.forEach(member => ...)] that pushes the
    edge from the referrer to [member], when there is one to push. *)
Definition edgeOf (focusedLevel : option Z) (visibleMembers : list MemberNode)
    (member : MemberNode) : list Edge :=
  match referredBy member with
  | Some r =>
    if truthy (Some r)
       && match findMember r visibleMembers with Some _ => true | None => false end
    then [ {| edge_id := (r ++ "-" ++ id member)%string;
              source := r;
              target := id member;
              stroke := getLevelColor (level member);
              opacity :=
                match focusedLevel with
                | Some f => if (level member =? f)%Z then Full else Dimmed
                | None => Full
                end |} ]
    else []
  | None => []
  end.

Definition edgesOf (focusedLevel : option Z) (visibleMembers : list MemberNode)
  : list Edge :=
  flat_map (edgeOf focusedLevel visibleMembers) visibleMembers.

(** The second [useMemo], without the node positions: the visible members
    and the edges between them. *)
Definition network (visibleLevels : gset Z) (expandedNodes : gset string)
    (focusedLevel : option Z) (connectedMembers : list MemberNode)
  : list MemberNode * list Edge :=
  if (length connectedMembers =? 0)%nat then ([], [])
  else
    let visibleMembers :=
      visibleMembersOf visibleLevels expandedNodes focusedLevel connectedMembers in
    (visibleMembers, edgesOf focusedLevel visibleMembers).

(** [toggleNodeExpansionCallback], as the function from the previous
    expanded set to the next one. *)
Definition toggleNodeExpansion (connectedMembers : list MemberNode)
    (nodeId : string) (prev : gset string) : gset string :=
  match findMember nodeId connectedMembers with
  | Some member =>
    if (0 <? length (referrals member))%nat
    then if bool_decide (nodeId ∈ prev)
         then prev ∖ {[ nodeId ]}
         else prev ∪ {[ nodeId ]}
    else prev
  | None => prev
  end.

(** ** The referral relation *)

(** What the derivation reads of a record: its id and its referrer. *)
Definition Links := list (string * option string).

Definition memberLinks (members : list MemberNode) : Links :=
  List.map (fun m => (id m, referredBy m)) members.

(** A contact's referrer is its [referred_by] when that is truthy. *)
Definition contactLinks (contacts : list Contact) : Links :=
  List.map (fun c => (c_id c, orNull (c_referred_by c))) contacts.

(** [refers ls child parent]: some record with id [child] names [parent]
    as its referrer. *)
Definition refers (ls : Links) (child parent : string) : Prop :=
  In (child, Some parent) ls.

(** No record reaches itself through one or more referrer links. *)
Definition acyclic (ls : Links) : Prop :=
  forall x, ~ clos_trans string (refers ls) x x.

(** Every referrer id is the id of a record. *)
Definition resolved (ls : Links) : Prop :=
  forall child parent, refers ls child parent -> In parent (List.map fst ls).

(** Ids identify records. *)
Definition uniqueIds (ls : Links) : Prop := List.NoDup (List.map fst ls).

(** Executable checks of the three conditions above; [rankedb] checks that
    a ranking of the ids strictly decreases along every referrer link. *)
Definition rankedb (rank : string -> nat) (ls : Links) : bool :=
  forallb (fun l => match snd l with
                    | Some p => (rank p <? rank (fst l))%nat
                    | None => true
                    end) ls.

Definition resolvedb (ls : Links) : bool :=
  forallb (fun l => match snd l with
                    | Some p => existsb (String.eqb p) (List.map fst ls)
                    | None => true
                    end) ls.

Fixpoint uniqueb (ids : list string) : bool :=
  match ids with
  | [] => true
  | x :: rest => negb (existsb (String.eqb x) rest) && uniqueb rest
  end.

Definition sumZ (l : list Z) : Z := fold_right Z.add 0%Z l.

(** Every id in a referral list belongs to a record that names the owner
    of the list as its referrer. *)
Definition referralsSound (ls : Links) (members : list MemberNode) : Prop :=
  forall m c, In m members -> In c (referrals m) -> refers ls c (id m).

(** The size of the transitive referral subtree below [memberId], by the
    recurrence of the data model: the sum over the direct referrals of one
    plus their own count. *)
Fixpoint subtreeSize (fuel : nat) (ls : Links) (memberId : string) : Z :=
  match fuel with
  | O => 0%Z
  | S fuel' =>
    fold_left
      (fun total l =>
         if strictEq (snd l) memberId
         then (total + (1 + subtreeSize fuel' ls (fst l)))%Z
         else total)
      ls 0%Z
  end.
(** ** Sample data *)

(** A contact with the given id and referrer and nothing else set. *)
Definition sampleContact (i : string) (r : option string) : Contact :=
  {| c_id := i; c_name := i; c_whatsapp := None; c_neighborhood := None;
     c_status := "member"; c_cell_id := None; c_referred_by := r;
     c_baptized := None; c_encounter_with_god := None; c_photo_url := None |}.

(** A (no referrer), B (referred by A), C (referred by B), in this order
    and in the opposite one. *)
Definition chainABC : list Contact :=
  [sampleContact "A" None; sampleContact "B" (Some "A"); sampleContact "C" (Some "B")].

Definition chainCBA : list Contact :=
  [sampleContact "C" (Some "B"); sampleContact "B" (Some "A"); sampleContact "A" None].

(** B names a referrer that is not in the list. *)
Definition danglingB : list Contact := [sampleContact "B" (Some "A")].

(** D has neither a referrer nor a referral. *)
Definition loneD : list Contact := [sampleContact "D" None].

Definition rankABC (x : string) : nat :=
  if String.eqb x "A" then 0%nat else if String.eqb x "B" then 1%nat else 2%nat.

(** A member as the loop leaves it, with the given id, referrer, referral
    list, level and descendant count. *)
Definition sampleMember (i : string) (r : option string) (refs : list string)
    (l t : Z) : MemberNode :=
  {| id := i; name := i; leader := "Sem líder"; cell := "Sem célula";
     status := "member"; referredBy := r; referrals := refs;
     whatsapp := None; neighborhood := None; baptized := false;
     encounterWithGod := false; level := l; totalDescendants := t;
     photo_url := None |}.

Definition memberA : MemberNode := sampleMember "A" None ["B"] 0 2.
Definition memberB : MemberNode := sampleMember "B" (Some "A") ["C"] 1 1.
Definition memberC : MemberNode := sampleMember "C" (Some "B") [] 2 0.
Definition membersABC : list MemberNode := [memberA; memberB; memberC].
Definition memberD : MemberNode := sampleMember "D" None [] 0 0.

(** The initial state of [visibleLevels]: [new Set([0, 1, 2, 3, 4])]. *)
Definition initialVisibleLevels : gset Z := {[ 0%Z; 1%Z; 2%Z; 3%Z; 4%Z ]}.

(** What a member shows of the derivation. *)
Definition derived (m : MemberNode) : string * list string * Z * Z :=
  (id m, referrals m, level m, totalDescendants m).

(** ** View state and its transitions *)

(** [!m.referredBy]. *)
Definition isRoot (m : MemberNode) : bool := negb (truthy (referredBy m)).

(** The [useEffect] that expands the first three roots whenever the
    connected members change, as the function from the previous expanded
    set to the next one. *)
Definition initialExpansion (connectedMembers : list MemberNode)
    (prev : gset string) : gset string :=
  if (0 <? length connectedMembers)%nat
  then list_to_set (List.map id (firstn 3 (List.filter isRoot connectedMembers)))
  else prev.

(** The [onClick] of the "Expandir" button. *)
Definition expandAll (connectedMembers : list MemberNode) : gset string :=
  list_to_set (List.map id connectedMembers).

(** The [onClick] of the "Colapsar" button. *)
Definition collapseAll (connectedMembers : list MemberNode) : gset string :=
  list_to_set (List.map id (List.filter isRoot connectedMembers)).

(** [toggleLevel], as the function from the previous visible-level set to
    the next one. *)
Definition toggleLevel (l : Z) (prev : gset Z) : gset Z :=
  if bool_decide (l ∈ prev) then prev ∖ {[ l ]} else prev ∪ {[ l ]}.

(** The body of [levelMembers.forEach(member => ...)] in [focusOnLevel]. *)
Definition addWithReferrer (acc : gset string) (member : MemberNode) : gset string :=
  let acc1 := acc ∪ {[ id member ]} in
  match referredBy member with
  | Some r => if truthy (Some r) then acc1 ∪ {[ r ]} else acc1
  | None => acc1
  end.

(** [focusOnLevel]: the next focused level and the next expanded set. *)
Definition focusOnLevel (connectedMembers : list MemberNode) (l : option Z)
    (prev : gset string) : option Z * gset string :=
  (l,
   match l with
   | Some f =>
     fold_left addWithReferrer
       (List.filter (fun m => (level m =? f)%Z) connectedMembers) prev
   | None => prev
   end).

(** ** Level metrics *)

Record LevelMetric := {
  metric_count : Z;
  metric_baptized : Z;
  metric_withEncounter : Z
}.

(** The body of [connectedMembers.forEach(member => ...)] in the metrics
    [useMemo]: the entry of the level is created at zero when it is missing
    and then counted up. *)
Definition countMember (metrics : gmap Z LevelMetric) (member : MemberNode)
  : gmap Z LevelMetric :=
  let metrics1 :=
    match metrics !! level member with
    | Some _ => metrics
    | None =>
      <[ level member :=
           {| metric_count := 0; metric_baptized := 0; metric_withEncounter := 0 |} ]>
        metrics
    end in
  alter
    (fun e =>
       {| metric_count := metric_count e + 1;
          metric_baptized :=
            if baptized member then metric_baptized e + 1 else metric_baptized e;
          metric_withEncounter :=
            if encounterWithGod member
            then metric_withEncounter e + 1 else metric_withEncounter e |})
    (level member) metrics1.

Definition levelMetrics (connectedMembers : list MemberNode) : gmap Z LevelMetric :=
  fold_left countMember connectedMembers ∅.

(** The number of members of a list that pass a test, as a [number]. *)
Definition countIf (p : MemberNode -> bool) (members : list MemberNode) : Z :=
  Z.of_nat (length (List.filter p members)).

(** An entry with the members of level [l] of a list counted in. *)
Definition addTally (e : LevelMetric) (l : Z) (members : list MemberNode)
  : LevelMetric :=
  {| metric_count := metric_count e + countIf (fun m => (level m =? l)%Z) members;
     metric_baptized :=
       metric_baptized e + countIf (fun m => (level m =? l)%Z && baptized m) members;
     metric_withEncounter :=
       metric_withEncounter e
       + countIf (fun m => (level m =? l)%Z && encounterWithGod m) members |}.

(** ** The loop seen from one member *)

(** A member whose referral list is not assigned yet. *)
Definition blank (m : MemberNode) : MemberNode := set_referrals m [].

(** Every referral comes before its referrer: whenever [pre ++ m :: post]
    is the list, the referrals of [m] are ids of [pre]. *)
Definition childrenFirst (members : list MemberNode) : Prop :=
  forall pre m post, members = pre ++ m :: post ->
    forall c, In c (referrals m) -> In c (List.map id pre).

(** A member with its three derived fields as the projection sets them. *)
Definition resetDerived (m : MemberNode) : MemberNode :=
  set_totalDescendants (set_level (set_referrals m []) 0) 0.

(** A cell with the given id, name and leader, and a contact of that cell. *)
Definition sampleCell (i n l : string) : Cell :=
  {| cell_id := i; cell_name := Some n; cell_leader_name := Some l |}.

Definition sampleContactIn (i k : string) : Contact :=
  {| c_id := i; c_name := i; c_whatsapp := None; c_neighborhood := None;
     c_status := "member"; c_cell_id := Some k; c_referred_by := None;
     c_baptized := None; c_encounter_with_god := None; c_photo_url := None |}.

(** What the descendant count reads of a list: ids and referral lists. *)
Definition referralView (members : list MemberNode) : list (string * list string) :=
  List.map (fun m => (id m, referrals m)) members.

(** [a] is [a'] seen earlier in the loop: the same id, and the referral
    list of [a'] or none yet. *)
Definition behind (a a' : MemberNode) : Prop :=
  id a = id a' /\ (referrals a = referrals a' \/ referrals a = []).

(** ** Layout *)

(** [a === b] for two [string | null] values. *)
Definition sameReferrer (a b : option string) : bool :=
  match a, b with
  | Some x, Some y => String.eqb x y
  | None, None => true
  | _, _ => false
  end.

(** [Array.prototype.findIndex]: the position of the first element that
    passes the test, or [-1]. *)
Fixpoint findIndex {A : Type} (p : A -> bool) (l : list A) : Z :=
  match l with
  | [] => (-1)%Z
  | x :: rest =>
    if p x then 0%Z
    else let i := findIndex p rest in
         if (i <? 0)%Z then (-1)%Z else (1 + i)%Z
  end.

(** [siblings] in [calculateCompactPosition]. *)
Definition siblingsOf (member : MemberNode) (allMembers : list MemberNode)
  : list MemberNode :=
  List.filter
    (fun m => sameReferrer (referredBy m) (referredBy member)
              && (level m =? level member)%Z)
    allMembers.

(** [function calculateCompactPosition(member, allMembers)].  The
    coordinates are halves of integers, which the numbers of the source
    hold exactly; they are rationals here. *)
Definition calculateCompactPosition (member : MemberNode)
    (allMembers : list MemberNode) : Q * Q :=
  let baseY := 40%Q in
  let levelSpacing := 120%Q in
  let siblingSpacing := 200%Q in
  let siblings := siblingsOf member allMembers in
  let siblingIndex := findIndex (fun s => String.eqb (id s) (id member)) siblings in
  let levelWidth := Z.max 1 (Z.of_nat (length siblings)) in
  let centerOffset :=
    ((inject_Z siblingIndex - inject_Z (levelWidth - 1) / 2) * siblingSpacing)%Q in
  let levelIndent := (inject_Z (level member) * 20)%Q in
  ((300 + centerOffset - levelIndent)%Q,
   (baseY + inject_Z (level member) * levelSpacing)%Q).

End GenealogyNetwork.

Module EditContactDialog.

(** ** Data model of the edit dialog *)

(** The state held by [useState] for the form. *)
Record Form := {
  name : string;
  whatsapp : string;
  email : string;
  neighborhood : string;
  city_id : string;
  birth_date : string;
  encounter_with_god : bool;
  baptized : bool;
  status : string;
  cell_id : string;
  referred_by : string;
  photo_url : option string;
  founder : bool;
  leader_id : string
}.

(** What [handleSave] reads of the [contact] prop. *)
Record Contact := {
  contact_id : string;
  contact_status : string;
  contact_cell_id : option string
}.

(** The object handed to the update operation. *)
Record UpdateData := {
  u_name : string;
  u_whatsapp : string;
  u_neighborhood : string;
  u_city_id : option string;
  u_birth_date : option string;
  u_encounter_with_god : bool;
  u_baptized : bool;
  u_status : string;
  u_cell_id : option string;
  u_referred_by : option string;
  u_photo_url : option string;
  u_founder : bool;
  u_leader_id : option string
}.

Record Toast := {
  title : string;
  description : string;
  variant : string
}.

Definition validationToast : Toast :=
  {| title := "Erro";
     description :=
       "Por favor, preencha todos os campos obrigatórios (Nome, WhatsApp e Bairro).";
     variant := "destructive" |}.

Definition updateFailedToast : Toast :=
  {| title := "Erro";
     description := "Erro ao atualizar contato";
     variant := "destructive" |}.

(** [!s] for a string. *)
Definition isEmpty (s : string) : bool := String.eqb s "".

(** The status sent with the update, decided from the cell of the form and
    the current cell of the contact. *)
Definition newStatus (form : Form) (contact : Contact) : string :=
  if negb (isEmpty (cell_id form))
     && negb (strictEq (contact_cell_id contact) (cell_id form))
  then "member"
  else if isEmpty (cell_id form) && truthy (contact_cell_id contact)
  then "pending"
  else contact_status contact.

Definition referredByValue (form : Form) : option string :=
  if negb (isEmpty (referred_by form))
     && negb (String.eqb (referred_by form) "no-referral")
     && negb (String.eqb (referred_by form) "")
  then Some (referred_by form)
  else None.

Definition leaderIdValue (form : Form) : option string :=
  if negb (isEmpty (leader_id form)) && negb (String.eqb (leader_id form) "")
  then Some (leader_id form)
  else None.

Definition updateData (form : Form) (contact : Contact) : UpdateData :=
  {| u_name := name form;
     u_whatsapp := whatsapp form;
     u_neighborhood := neighborhood form;
     u_city_id := orNull (Some (city_id form));
     u_birth_date := orNull (Some (birth_date form));
     u_encounter_with_god := encounter_with_god form;
     u_baptized := baptized form;
     u_status := newStatus form contact;
     u_cell_id := orNull (Some (cell_id form));
     u_referred_by := referredByValue form;
     u_photo_url := photo_url form;
     u_founder := founder form;
     u_leader_id := leaderIdValue form |}.

(** ** The handler

    The handler acts on what surrounds the dialog: the contacts kept by the
    data hook, the notifications shown, the [saving] flag, whether the
    dialog is open, and the calls made to the update operation and to the
    optional [onContactUpdated] callback.  The update operation belongs to
    the hook: it is a parameter, which answers with the contacts it leaves
    and whether its promise was fulfilled. *)

Section Handler.
Variable Store : Type.
Variable updateContact : string -> UpdateData -> Store -> Store * bool.

Record World := {
  store : Store;
  toasts : list Toast;
  saving : bool;
  dialogOpen : bool;
  updatesSent : list (string * UpdateData);
  contactUpdatedCalls : nat
}.

Definition toast (t : Toast) (w : World) : World :=
  {| store := store w; toasts := toasts w ++ [t]; saving := saving w;
     dialogOpen := dialogOpen w; updatesSent := updatesSent w;
     contactUpdatedCalls := contactUpdatedCalls w |}.

Definition setSaving (b : bool) (w : World) : World :=
  {| store := store w; toasts := toasts w; saving := b;
     dialogOpen := dialogOpen w; updatesSent := updatesSent w;
     contactUpdatedCalls := contactUpdatedCalls w |}.

Definition onOpenChange (b : bool) (w : World) : World :=
  {| store := store w; toasts := toasts w; saving := saving w;
     dialogOpen := b; updatesSent := updatesSent w;
     contactUpdatedCalls := contactUpdatedCalls w |}.

Definition onContactUpdated (w : World) : World :=
  {| store := store w; toasts := toasts w; saving := saving w;
     dialogOpen := dialogOpen w; updatesSent := updatesSent w;
     contactUpdatedCalls := S (contactUpdatedCalls w) |}.

(** [await updateContact(id, data)]: the call is recorded, the hook acts
    on the contacts, and the answer tells whether the [try] block goes
    on or the [catch] block runs. *)
Definition awaitUpdate (contactId : string) (data : UpdateData) (w : World)
  : World * bool :=
  let (store', fulfilled) := updateContact contactId data (store w) in
  ({| store := store'; toasts := toasts w; saving := saving w;
      dialogOpen := dialogOpen w;
      updatesSent := updatesSent w ++ [(contactId, data)];
      contactUpdatedCalls := contactUpdatedCalls w |}, fulfilled).

(** [const handleSave = async () => ...]; [hasCallback] tells whether the
    [onContactUpdated] prop was given. *)
Definition handleSave (hasCallback : bool) (form : Form) (contact : Contact)
    (w : World) : World :=
  if isEmpty (name form) || isEmpty (whatsapp form) || isEmpty (neighborhood form)
  then toast validationToast w
  else
    let w1 := setSaving true w in
    let (w2, fulfilled) :=
      awaitUpdate (contact_id contact) (updateData form contact) w1 in
    let w3 :=
      if fulfilled
      then onOpenChange false (if hasCallback then onContactUpdated w2 else w2)
      else toast updateFailedToast w2 in
    setSaving false w3.
End Handler.

Arguments store {Store}.
Arguments toasts {Store}.
Arguments saving {Store}.
Arguments dialogOpen {Store}.
Arguments updatesSent {Store}.
Arguments contactUpdatedCalls {Store}.
Arguments handleSave {Store}.

(** ** Sample data *)

Definition sampleForm (n w nb c : string) : Form :=
  {| name := n; whatsapp := w; email := ""; neighborhood := nb; city_id := "";
     birth_date := ""; encounter_with_god := false; baptized := false;
     status := "pending"; cell_id := c; referred_by := ""; photo_url := None;
     founder := false; leader_id := "" |}.

Definition sampleContact (c : option string) (s : string) : Contact :=
  {| contact_id := "k1"; contact_status := s; contact_cell_id := c |}.

(** A store that keeps the last update of every contact, and an update
    operation on it that always succeeds. *)
Definition sampleUpdate (contactId : string) (data : UpdateData)
    (st : list (string * UpdateData)) : list (string * UpdateData) * bool :=
  ((contactId, data) :: st, true).

Definition sampleWorld : World (list (string * UpdateData)) :=
  {| store := []; toasts := []; saving := false; dialogOpen := true;
     updatesSent := []; contactUpdatedCalls := 0 |}.

(** ** The contact prop and the lists of the data hook *)

(** The [contact] prop with the fields the dialog reads besides the three
    of [Contact]. *)
Record ContactProps := {
  core : Contact;
  p_name : option string;
  p_whatsapp : option string;
  p_email : option string;
  p_neighborhood : option string;
  p_city_id : option string;
  p_birth_date : option string;
  p_encounter_with_god : option bool;
  p_baptized : option bool;
  p_referred_by : option string;
  p_photo_url : option string;
  p_founder : option bool;
  p_leader_id : option string
}.

Record Neighborhood := {
  nb_id : string;
  nb_name : string;
  nb_city_id : option string
}.

(** ** Loading the form from the contact *)

(** [requiredFields.filter(field => !contact[field])]. *)
Definition missingFields (contact : ContactProps) : list string :=
  (if isEmpty (contact_id (core contact)) then ["id"] else [])
  ++ (if truthy (p_name contact) then [] else ["name"]).

(** The city of the form: the city of the contact, or else the city of the
    neighborhood that has the name of the contact's neighborhood. *)
Definition resolveCity (contact : ContactProps)
    (neighborhoods : option (list Neighborhood)) : string :=
  let city := orElse (p_city_id contact) "" in
  if isEmpty city && truthy (p_neighborhood contact)
     && match neighborhoods with Some (_ :: _) => true | _ => false end
  then
    match neighborhoods, p_neighborhood contact with
    | Some nbs, Some n =>
      match List.find (fun nb => String.eqb (nb_name nb) n) nbs with
      | Some nb => orElse (nb_city_id nb) ""
      | None => ""
      end
    | _, _ => ""
    end
  else city.

(** [formData] in the effect. *)
Definition formOf (contact : ContactProps)
    (neighborhoods : option (list Neighborhood)) : Form :=
  {| name := orElse (p_name contact) "";
     whatsapp := orElse (p_whatsapp contact) "";
     email := orElse (p_email contact) "";
     neighborhood := orElse (p_neighborhood contact) "";
     city_id := resolveCity contact neighborhoods;
     birth_date := orElse (p_birth_date contact) "";
     encounter_with_god := orFalse (p_encounter_with_god contact);
     baptized := orFalse (p_baptized contact);
     status := orElse (Some (contact_status (core contact))) "pending";
     cell_id := orElse (contact_cell_id (core contact)) "";
     referred_by := orElse (p_referred_by contact) "";
     photo_url := orNull (p_photo_url contact);
     founder := orFalse (p_founder contact);
     leader_id := orElse (p_leader_id contact) "" |}.

Definition incompleteToast (missing : list string) : Toast :=
  {| title := "Erro";
     description :=
       ("Dados do contato incompletos: " ++ String.concat ", " missing)%string;
     variant := "destructive" |}.

(** The [useEffect] that loads the form: the next form and the
    notifications raised. *)
Definition loadForm (contact : option ContactProps) (open : bool)
    (neighborhoods : option (list Neighborhood)) (form : Form)
  : Form * list Toast :=
  match contact with
  | None => (form, [])
  | Some c =>
    if negb open then (form, [])
    else
      match missingFields c with
      | [] => (formOf c neighborhoods, [])
      | missing => (form, [incompleteToast missing])
      end
  end.

(** What the component renders. *)
Inductive View := NoView | IncompleteView | LoadingView | FormView.

(** The three guards before the form is rendered; [citiesLoaded] tells
    whether [cities] is there. *)
Definition view (contact : option ContactProps)
    (neighborhoods : option (list Neighborhood)) (citiesLoaded : bool) : View :=
  match contact with
  | None => NoView
  | Some c =>
    if isEmpty (contact_id (core c)) || negb (truthy (p_name c))
    then IncompleteView
    else if match neighborhoods with None => true | Some _ => false end
            || negb citiesLoaded
    then LoadingView
    else FormView
  end.

(** [filteredNeighborhoods], once the neighborhoods are there. *)
Definition filteredNeighborhoods (form : Form) (neighborhoods : list Neighborhood)
  : list Neighborhood :=
  if negb (isEmpty (city_id form))
  then List.filter (fun nb => strictEq (nb_city_id nb) (city_id form)) neighborhoods
  else neighborhoods.

(** ** Editing the form *)

(** [onValueChange] of the city select. *)
Definition onCityChange (value : string) (f : Form) : Form :=
  {| name := name f; whatsapp := whatsapp f; email := email f;
     neighborhood := "";
     city_id := if String.eqb value "empty-city" then "" else value;
     birth_date := birth_date f; encounter_with_god := encounter_with_god f;
     baptized := baptized f; status := status f; cell_id := cell_id f;
     referred_by := referred_by f; photo_url := photo_url f;
     founder := founder f; leader_id := leader_id f |}.

(** [onValueChange] of the neighborhood select. *)
Definition onNeighborhoodChange (value : string) (f : Form) : Form :=
  {| name := name f; whatsapp := whatsapp f; email := email f;
     neighborhood := if String.eqb value "empty-neighborhood" then "" else value;
     city_id := city_id f;
     birth_date := birth_date f; encounter_with_god := encounter_with_god f;
     baptized := baptized f; status := status f; cell_id := cell_id f;
     referred_by := referred_by f; photo_url := photo_url f;
     founder := founder f; leader_id := leader_id f |}.

(** ** Buttons and badge *)

Inductive DialogContext := CellContext | ContactsContext.

Definition isVisitor (contact : Contact) : bool :=
  String.eqb (contact_status contact) "visitor".

Definition isMember (contact : Contact) : bool :=
  String.eqb (contact_status contact) "member".

Definition isPending (contact : Contact) : bool :=
  String.eqb (contact_status contact) "pending".

Definition showTransformButton (context : DialogContext) (contact : Contact) : bool :=
  match context with CellContext => isVisitor contact | ContactsContext => false end.

Definition showTransferButton (form : Form) (contact : Contact) : bool :=
  isMember contact
  && negb (strictEq (contact_cell_id contact) (cell_id form))
  && negb (isEmpty (cell_id form)).

Definition showCellField (context : DialogContext) (contact : Contact) : bool :=
  isMember contact
  || match context with ContactsContext => true | CellContext => false end
  || isPending contact.

(** [getStatusBadge]: the variant and the text. *)
Definition getStatusBadge (contact : Contact) : string * string :=
  if isMember contact then ("default", "Membro")
  else if isVisitor contact then ("secondary", "Visitante")
  else ("outline", "Pendente").

(** The object [handleTransferCell] hands to the update operation: the
    cell and the status. *)
Definition transferPayload (form : Form) : option string * string :=
  (orNull (Some (cell_id form)),
   if negb (isEmpty (cell_id form)) then "member" else "pending").

(** A contact prop with every optional field set, and the neighborhoods of
    two cities. *)
Definition sampleProps (i n : string) (city : option string) : ContactProps :=
  {| core := {| contact_id := i; contact_status := "visitor";
                contact_cell_id := Some "c1" |};
     p_name := Some n; p_whatsapp := Some "55"; p_email := None;
     p_neighborhood := Some "Centro"; p_city_id := city; p_birth_date := None;
     p_encounter_with_god := None; p_baptized := Some true;
     p_referred_by := Some "k0"; p_photo_url := None; p_founder := None;
     p_leader_id := None |}.

Definition sampleNeighborhoods : list Neighborhood :=
  [ {| nb_id := "n1"; nb_name := "Norte"; nb_city_id := Some "city2" |};
    {| nb_id := "n2"; nb_name := "Centro"; nb_city_id := Some "city1" |} ].

(** ** The handler with callbacks that may throw

    [onContactUpdated()] and [onOpenChange(false)] are called inside the
    [try] block, after the update: when one of them throws, the [catch]
    block runs as it does for a rejected update, and the [finally] block
    runs in every case.  A callback of the parent either returns or
    throws; a call that throws is counted and changes nothing else. *)

Inductive Outcome := Returns | Throws.

Section GuardedHandler.
Variable Store : Type.
Variable updateContact : string -> UpdateData -> Store -> Store * bool.

(** The rest of the [try] block after a fulfilled update, with its
    [catch]: [onUpdated] is [None] when the [onContactUpdated] prop is not
    given, [onClose] tells how [onOpenChange(false)] ends. *)
Definition afterUpdate (onUpdated : option Outcome) (onClose : Outcome)
    (w : World Store) : World Store :=
  match onUpdated with
  | Some Throws => toast Store updateFailedToast (onContactUpdated Store w)
  | _ =>
    let w1 :=
      match onUpdated with
      | Some _ => onContactUpdated Store w
      | None => w
      end in
    match onClose with
    | Returns => onOpenChange Store false w1
    | Throws => toast Store updateFailedToast w1
    end
  end.

Definition handleSaveWith (onUpdated : option Outcome) (onClose : Outcome)
    (form : Form) (contact : Contact) (w : World Store) : World Store :=
  if isEmpty (name form) || isEmpty (whatsapp form) || isEmpty (neighborhood form)
  then toast Store validationToast w
  else
    let w1 := setSaving Store true w in
    let (w2, fulfilled) :=
      awaitUpdate Store updateContact (contact_id contact)
        (updateData form contact) w1 in
    let w3 :=
      if fulfilled
      then afterUpdate onUpdated onClose w2
      else toast Store updateFailedToast w2 in
    setSaving Store false w3.
End GuardedHandler.

Arguments handleSaveWith {Store}.

End EditContactDialog.

(** * Properties *)

(** ** JavaScript helpers *)

Lemma truthy_Some_inv v : truthy v = true -> exists s, v = Some s /\ s <> "".
Proof.
  destruct v as [s|]; simpl; [|discriminate].
  intros H. exists s. split; [reflexivity|].
  intros ->. discriminate.
Qed.

Lemma truthy_orNull v : truthy (orNull v) = truthy v.
Proof. unfold orNull. destruct (truthy v) eqn:E; [exact E | reflexivity]. Qed.

Lemma orNull_Some v r : orNull v = Some r -> v = Some r /\ r <> "".
Proof.
  unfold orNull. destruct (truthy v) eqn:E; [|discriminate].
  intros ->. apply truthy_Some_inv in E as (s & [= <-] & Hs). auto.
Qed.

Lemma strictEq_true v s : strictEq v s = true <-> v = Some s.
Proof.
  destruct v as [x|]; simpl.
  - rewrite String.eqb_eq. split; congruence.
  - split; discriminate.
Qed.

(** ** Chains of a relation without cycles

    A chain lists the ids met along a walk, the latest first.  Without
    cycles a chain never repeats an id, so it is no longer than any list
    that holds all its ids. *)

Section Chains.
Variable R : string -> string -> Prop.
Hypothesis R_acyclic : forall x, ~ clos_trans string R x x.

Inductive chain : list string -> Prop :=
| chain_nil : chain []
| chain_one x : chain [x]
| chain_step x y l : R y x -> chain (y :: l) -> chain (x :: y :: l).

Lemma chain_tail x l : chain (x :: l) -> chain l.
Proof.
  intros Hc. inversion Hc; subst; [apply chain_nil | assumption].
Qed.

Lemma chain_reach l : forall x y, chain (x :: l) -> In y l -> clos_trans string R y x.
Proof.
  induction l as [|z l IH]; intros x y Hc Hy; [destruct Hy|].
  inversion Hc as [| |? ? ? Hzx Hc']; subst.
  destruct Hy as [->|Hy].
  - now apply t_step.
  - eapply t_trans; [apply (IH z y Hc' Hy) | now apply t_step].
Qed.

Lemma chain_NoDup l : chain l -> List.NoDup l.
Proof.
  induction l as [|x l IH]; intros Hc; [constructor|].
  constructor.
  - intros Hx. apply (R_acyclic x). exact (chain_reach l x x Hc Hx).
  - apply IH. exact (chain_tail x l Hc).
Qed.

Lemma chain_length l ids : chain l -> incl l ids -> (length l <= length ids)%nat.
Proof.
  intros Hc Hi. apply NoDup_incl_length; [now apply chain_NoDup | exact Hi].
Qed.
End Chains.

Module GenealogyFacts.
Import GenealogyNetwork.

(** ** Looking a member up by id *)

Lemma findMember_Some x ms m :
  findMember x ms = Some m -> In m ms /\ id m = x.
Proof.
  unfold findMember. intros H. apply find_some in H as [Hin Heq].
  split; [exact Hin | now apply String.eqb_eq].
Qed.

Lemma findMember_None x ms :
  findMember x ms = None -> ~ In x (List.map id ms).
Proof.
  unfold findMember. intros H Hin.
  apply in_map_iff in Hin as (m & Hm & Hin).
  pose proof (find_none _ _ H m Hin) as Hne. simpl in Hne.
  rewrite <- Hm, String.eqb_refl in Hne. discriminate.
Qed.

Lemma findMember_links x ms : forall ms',
  memberLinks ms = memberLinks ms' ->
  option_map (fun m => (id m, referredBy m)) (findMember x ms)
  = option_map (fun m => (id m, referredBy m)) (findMember x ms').
Proof.
  induction ms as [|m ms IH]; intros [|m' ms'] Heq; try discriminate; [reflexivity|].
  simpl in Heq. injection Heq as Hid Hr Hrest.
  unfold findMember in *. simpl. rewrite Hid.
  destruct (String.eqb (id m') x).
  - simpl. now rewrite Hid, Hr.
  - now apply IH.
Qed.

Lemma findMember_unique ms m :
  List.NoDup (List.map id ms) -> In m ms -> findMember (id m) ms = Some m.
Proof.
  unfold findMember. induction ms as [|a ms IH]; intros Hnd Hin; [destruct Hin|].
  simpl in *. inversion Hnd as [|? ? Hnotin Hnd']; subst.
  destruct Hin as [->|Hin].
  - now rewrite String.eqb_refl.
  - destruct (String.eqb (id a) (id m)) eqn:E.
    + apply String.eqb_eq in E. exfalso. apply Hnotin. rewrite E.
      now apply in_map.
    + now apply IH.
Qed.

Lemma memberLinks_ids ms : List.map fst (memberLinks ms) = List.map id ms.
Proof. unfold memberLinks. rewrite List.map_map. reflexivity. Qed.

Lemma memberLinks_length ms : length (memberLinks ms) = length ms.
Proof. unfold memberLinks. apply List.length_map. Qed.

Lemma memberLinks_app ms ms' :
  memberLinks (ms ++ ms') = memberLinks ms ++ memberLinks ms'.
Proof. unfold memberLinks. apply List.map_app. Qed.

Lemma findMember_refers x ms m r :
  findMember x ms = Some m -> referredBy m = Some r -> refers (memberLinks ms) x r.
Proof.
  intros Hf Hr. apply findMember_Some in Hf as [Hin <-].
  unfold refers, memberLinks. apply in_map_iff. exists m.
  split; [now rewrite Hr | exact Hin].
Qed.

(** ** The depth computation *)

Lemma calculateMemberLevel_S fuel x ms :
  calculateMemberLevel (S fuel) x ms =
  match findMember x ms with
  | None => Some 0%Z
  | Some member =>
    match referredBy member with
    | None => Some 0%Z
    | Some r =>
      if String.eqb r "" then Some 0%Z
      else match calculateMemberLevel fuel r ms with
           | Some l => Some (1 + l)%Z
           | None => None
           end
    end
  end.
Proof. reflexivity. Qed.

(** The depth only depends on the ids and the referrers. *)
Lemma calculateMemberLevel_links fuel : forall x ms ms',
  memberLinks ms = memberLinks ms' ->
  calculateMemberLevel fuel x ms = calculateMemberLevel fuel x ms'.
Proof.
  induction fuel as [|fuel IH]; intros x ms ms' Heq; [reflexivity|].
  rewrite !calculateMemberLevel_S.
  pose proof (findMember_links x ms ms' Heq) as Hf.
  destruct (findMember x ms) as [m|], (findMember x ms') as [m'|];
    simpl in Hf; try discriminate; [|reflexivity].
  injection Hf as _ Hr. rewrite Hr.
  destruct (referredBy m') as [r|]; [|reflexivity].
  destruct (String.eqb r ""); [reflexivity|].
  now rewrite (IH r ms ms' Heq).
Qed.

(** A larger budget does not change an answer. *)
Lemma calculateMemberLevel_mono ms : forall fuel fuel' x l,
  calculateMemberLevel fuel x ms = Some l -> (fuel <= fuel')%nat ->
  calculateMemberLevel fuel' x ms = Some l.
Proof.
  induction fuel as [|fuel IH]; intros fuel' x l H Hle; [discriminate|].
  destruct fuel' as [|fuel']; [lia|].
  rewrite calculateMemberLevel_S in *.
  destruct (findMember x ms) as [m|]; [|exact H].
  destruct (referredBy m) as [r|]; [|exact H].
  destruct (String.eqb r ""); [exact H|].
  destruct (calculateMemberLevel fuel r ms) as [l'|] eqn:E; [|discriminate].
  rewrite (IH fuel' r l' E); [exact H | lia].
Qed.

Lemma calculateMemberLevel_nonneg ms : forall fuel x l,
  calculateMemberLevel fuel x ms = Some l -> (0 <= l)%Z.
Proof.
  induction fuel as [|fuel IH]; intros x l H; [discriminate|].
  rewrite calculateMemberLevel_S in H.
  destruct (findMember x ms) as [m|]; [|injection H as <-; lia].
  destruct (referredBy m) as [r|]; [|injection H as <-; lia].
  destruct (String.eqb r ""); [injection H as <-; lia|].
  destruct (calculateMemberLevel fuel r ms) as [l'|] eqn:E; [|discriminate].
  injection H as <-. apply IH in E. lia.
Qed.

(** Walking up the referrer links of an acyclic relation: the ids met so
    far form a chain, so the budget outlasts the walk. *)
Lemma calculateMemberLevel_total_aux ms :
  acyclic (memberLinks ms) ->
  forall fuel x path,
    chain (refers (memberLinks ms)) (x :: path) ->
    incl path (List.map id ms) ->
    (length ms < fuel + length path)%nat ->
    exists l, calculateMemberLevel fuel x ms = Some l.
Proof.
  intros Hac. induction fuel as [|fuel IH]; intros x path Hc Hi Hlen.
  - exfalso. apply chain_tail in Hc.
    pose proof (chain_length _ Hac path _ Hc Hi) as Hl.
    rewrite List.length_map in Hl. lia.
  - rewrite calculateMemberLevel_S.
    destruct (findMember x ms) as [m|] eqn:Hf; [|eauto].
    destruct (referredBy m) as [r|] eqn:Hr; [|eauto].
    destruct (String.eqb r ""); [eauto|].
    destruct (IH r (x :: path)) as [l Hl].
    + apply chain_step; [|exact Hc]. exact (findMember_refers x ms m r Hf Hr).
    + intros y [<-|Hy]; [|now apply Hi].
      apply findMember_Some in Hf as [Hin <-]. now apply in_map.
    + simpl. lia.
    + rewrite Hl. eauto.
Qed.

Lemma calculateMemberLevel_total ms fuel x :
  acyclic (memberLinks ms) -> (length ms < fuel)%nat ->
  exists l, calculateMemberLevel fuel x ms = Some l.
Proof.
  intros Hac Hlen. apply (calculateMemberLevel_total_aux ms Hac fuel x []).
  - apply chain_one.
  - intros y [].
  - simpl. lia.
Qed.

(** ** The descendant count *)

Lemma calculateTotalDescendants_S fuel x ms :
  calculateTotalDescendants (S fuel) x ms =
  match findMember x ms with
  | None => Some 0%Z
  | Some member =>
    fold_left
      (fun total childId =>
         match total, calculateTotalDescendants fuel childId ms with
         | Some t, Some d => Some (t + d)%Z
         | _, _ => None
         end)
      (referrals member)
      (Some (Z.of_nat (length (referrals member))))
  end.
Proof. reflexivity. Qed.

(** The accumulation over a referral list succeeds when every call does. *)
Lemma fold_children_total (f : string -> option Z) (l : list string) :
  (forall c, In c l -> exists d, f c = Some d) ->
  forall init, exists t,
    fold_left
      (fun total c =>
         match total, f c with
         | Some t, Some d => Some (t + d)%Z
         | _, _ => None
         end) l (Some init) = Some t.
Proof.
  induction l as [|c l IH]; intros Hall init; simpl; [eauto|].
  destruct (Hall c (or_introl eq_refl)) as [d ->].
  apply IH. intros c' Hc'. apply Hall. now right.
Qed.

Lemma clos_trans_flip (R : string -> string -> Prop) x y :
  clos_trans string (fun a b => R b a) x y -> clos_trans string R y x.
Proof.
  induction 1 as [x y H|x y z _ IH1 _ IH2].
  - now apply t_step.
  - eapply t_trans; eassumption.
Qed.

(** Walking down the referral lists: the mirror image of the walk up. *)
Lemma calculateTotalDescendants_total_aux ls ms :
  acyclic ls -> memberLinks ms = ls -> referralsSound ls ms ->
  forall fuel x path,
    chain (fun a b => refers ls b a) (x :: path) ->
    incl path (List.map id ms) ->
    (length ms < fuel + length path)%nat ->
    exists t, calculateTotalDescendants fuel x ms = Some t.
Proof.
  intros Hac Hls Hsound.
  assert (Hac' : forall x, ~ clos_trans string (fun a b => refers ls b a) x x).
  { intros x Hx. apply (Hac x). now apply clos_trans_flip. }
  induction fuel as [|fuel IH]; intros x path Hc Hi Hlen.
  - exfalso. apply chain_tail in Hc.
    pose proof (chain_length _ Hac' path _ Hc Hi) as Hl.
    rewrite List.length_map in Hl. lia.
  - rewrite calculateTotalDescendants_S.
    destruct (findMember x ms) as [m|] eqn:Hf; [|eauto].
    apply findMember_Some in Hf as [Hin Hid].
    apply fold_children_total. intros c Hcin.
    apply (IH c (x :: path)).
    + apply chain_step; [|exact Hc]. rewrite <- Hid. now apply Hsound.
    + intros y [<-|Hy]; [|now apply Hi]. rewrite <- Hid. now apply in_map.
    + simpl. lia.
Qed.

Lemma calculateTotalDescendants_total ls ms fuel x :
  acyclic ls -> memberLinks ms = ls -> referralsSound ls ms ->
  (length ms < fuel)%nat ->
  exists t, calculateTotalDescendants fuel x ms = Some t.
Proof.
  intros Hac Hls Hsound Hlen.
  apply (calculateTotalDescendants_total_aux ls ms Hac Hls Hsound fuel x []).
  - apply chain_one.
  - intros y [].
  - simpl. lia.
Qed.

(** ** The loop over the members *)

Lemma referralsOf_refers x ms c :
  In c (referralsOf x ms) -> refers (memberLinks ms) c x.
Proof.
  unfold referralsOf, refers, memberLinks. intros H.
  apply in_map_iff in H as (m & <- & Hm).
  apply filter_In in Hm as [Hin Heq]. apply strictEq_true in Heq.
  apply in_map_iff. exists m. split; [now rewrite Heq | exact Hin].
Qed.

Lemma referralsOf_links x ms : forall ms',
  memberLinks ms = memberLinks ms' -> referralsOf x ms = referralsOf x ms'.
Proof.
  unfold referralsOf.
  induction ms as [|m ms IH]; intros [|m' ms'] Heq; try discriminate; [reflexivity|].
  simpl in Heq. injection Heq as Hid Hr Hrest. simpl. rewrite Hr.
  destruct (strictEq (referredBy m') x); simpl.
  - now rewrite Hid, (IH ms' Hrest).
  - now apply IH.
Qed.

(** Overwriting a derived field of one member keeps the links. *)
Lemma memberLinks_replace visited rest m m' :
  id m' = id m -> referredBy m' = referredBy m ->
  memberLinks (visited ++ m' :: rest) = memberLinks (visited ++ m :: rest).
Proof.
  intros Hid Hr. rewrite !memberLinks_app. simpl. now rewrite Hid, Hr.
Qed.

Lemma referralsSound_replace ls visited rest m m' :
  id m' = id m ->
  (forall c, In c (referrals m') -> refers ls c (id m)) ->
  referralsSound ls (visited ++ m :: rest) ->
  referralsSound ls (visited ++ m' :: rest).
Proof.
  intros Hid Hm' Hs x c Hx Hc.
  apply in_app_or in Hx as [Hx|[<-|Hx]].
  - apply Hs; [apply in_or_app; now left | exact Hc].
  - rewrite Hid. now apply Hm'.
  - apply Hs; [apply in_or_app; right; now right | exact Hc].
Qed.

Lemma app_cons_assoc {A} (l : list A) x r : (l ++ [x]) ++ r = l ++ x :: r.
Proof. now rewrite <- List.app_assoc. Qed.

(** With an acyclic relation and a budget above the number of members the
    loop runs to its end. *)
Lemma fillMembers_total ls fuel :
  acyclic ls -> (length ls < fuel)%nat ->
  forall todo visited,
    memberLinks (visited ++ todo) = ls ->
    referralsSound ls (visited ++ todo) ->
    exists res, fillMembers fuel visited todo = Some res.
Proof.
  intros Hac Hfuel. induction todo as [|member rest IH]; intros visited Hls Hs.
  - simpl. eauto.
  - simpl.
    set (member1 := set_referrals member
                      (referralsOf (id member) (visited ++ member :: rest))).
    assert (Hls1 : memberLinks (visited ++ member1 :: rest) = ls).
    { rewrite <- Hls. now apply memberLinks_replace. }
    assert (Hs1 : referralsSound ls (visited ++ member1 :: rest)).
    { apply (referralsSound_replace ls visited rest member); [reflexivity| |exact Hs].
      intros c Hc. rewrite <- Hls. now apply referralsOf_refers. }
    destruct (calculateMemberLevel_total (visited ++ member1 :: rest) fuel (id member))
      as [l Hl].
    { now rewrite Hls1. }
    { rewrite <- memberLinks_length, Hls1. exact Hfuel. }
    change (id member1) with (id member). rewrite Hl.
    set (member2 := set_level member1 l).
    assert (Hls2 : memberLinks (visited ++ member2 :: rest) = ls).
    { rewrite <- Hls1. now apply memberLinks_replace. }
    assert (Hs2 : referralsSound ls (visited ++ member2 :: rest)).
    { apply (referralsSound_replace ls visited rest member1); [reflexivity| |exact Hs1].
      intros c Hc. apply (Hs1 member1); [apply in_or_app; right; now left | exact Hc]. }
    destruct (calculateTotalDescendants_total ls (visited ++ member2 :: rest) fuel
                (id member) Hac Hls2 Hs2) as [t Ht].
    { rewrite <- memberLinks_length, Hls2. exact Hfuel. }
    change (id member2) with (id member). rewrite Ht.
    apply IH.
    + rewrite app_cons_assoc, <- Hls2. now apply memberLinks_replace.
    + rewrite app_cons_assoc.
      apply (referralsSound_replace ls visited rest member2); [reflexivity| |exact Hs2].
      intros c Hc. apply (Hs2 member2); [apply in_or_app; right; now left | exact Hc].
Qed.

Lemma fillMembers_cons fuel visited member rest :
  fillMembers fuel visited (member :: rest) =
  let member1 :=
    set_referrals member (referralsOf (id member) (visited ++ member :: rest)) in
  match calculateMemberLevel fuel (id member1) (visited ++ member1 :: rest) with
  | None => None
  | Some l =>
    let member2 := set_level member1 l in
    match calculateTotalDescendants fuel (id member2) (visited ++ member2 :: rest) with
    | None => None
    | Some t => fillMembers fuel (visited ++ [set_totalDescendants member2 t]) rest
    end
  end.
Proof. reflexivity. Qed.

(** What the loop leaves in every member: the depth and the referral list
    computed from its id. *)
Lemma fillMembers_spec ls fuel : forall todo visited res,
  fillMembers fuel visited todo = Some res ->
  memberLinks (visited ++ todo) = ls ->
  memberLinks res = ls /\
  forall m, In m res ->
    In m visited \/
    (calculateMemberLevel fuel (id m) res = Some (level m)
     /\ referrals m = referralsOf (id m) res).
Proof.
  induction todo as [|member rest IH]; intros visited res Hrun Hls.
  - simpl in Hrun. injection Hrun as <-. rewrite List.app_nil_r in Hls.
    split; [exact Hls | auto].
  - rewrite fillMembers_cons in Hrun. cbv zeta in Hrun.
    set (member1 := set_referrals member
                      (referralsOf (id member) (visited ++ member :: rest))) in *.
    destruct (calculateMemberLevel fuel (id member1) (visited ++ member1 :: rest))
      as [l|] eqn:Hl; [|discriminate].
    set (member2 := set_level member1 l) in *.
    destruct (calculateTotalDescendants fuel (id member2) (visited ++ member2 :: rest))
      as [t|] eqn:Ht; [|discriminate].
    set (member3 := set_totalDescendants member2 t) in *.
    assert (Hls1 : memberLinks (visited ++ member1 :: rest) = ls).
    { rewrite <- Hls. now apply memberLinks_replace. }
    destruct (IH (visited ++ [member3]) res Hrun) as [Hres Hall].
    { rewrite app_cons_assoc, <- Hls1. now apply memberLinks_replace. }
    split; [exact Hres|].
    intros m Hm. destruct (Hall m Hm) as [Hv|Hd]; [|now right].
    apply in_app_or in Hv as [Hv|[<-|[]]]; [now left|right].
    split.
    + change (level member3) with l. rewrite <- Hl.
      apply calculateMemberLevel_links. now rewrite Hres, Hls1.
    + change (referrals member3)
        with (referralsOf (id member) (visited ++ member :: rest)).
      apply referralsOf_links. now rewrite Hres, Hls.
Qed.

(** ** The projection *)

Lemma projectMembers_links contacts cells :
  memberLinks (projectMembers contacts cells) = contactLinks contacts.
Proof.
  unfold memberLinks, projectMembers, contactLinks. rewrite List.map_map.
  reflexivity.
Qed.

Lemma projectMembers_sound ls contacts cells :
  referralsSound ls (projectMembers contacts cells).
Proof.
  intros m c Hm Hc. unfold projectMembers in Hm.
  apply in_map_iff in Hm as (k & <- & _). destruct Hc.
Qed.

Lemma contactLinks_length contacts : length (contactLinks contacts) = length contacts.
Proof. unfold contactLinks. apply List.length_map. Qed.

(** A referrer kept by the projection is never the empty string. *)
Lemma contactLinks_truthy contacts c r :
  refers (contactLinks contacts) c r -> r <> "".
Proof.
  unfold refers, contactLinks. intros H.
  apply in_map_iff in H as (k & [= _ Hr] & _). now apply orNull_Some in Hr.
Qed.

Lemma allMembers_total contacts cells fuel :
  acyclic (contactLinks contacts) -> (length contacts < fuel)%nat ->
  exists ms, allMembers fuel contacts cells = Some ms.
Proof.
  intros Hac Hfuel. unfold allMembers.
  apply (fillMembers_total (contactLinks contacts)); simpl.
  - exact Hac.
  - now rewrite contactLinks_length.
  - apply projectMembers_links.
  - apply projectMembers_sound.
Qed.

Lemma allMembers_spec contacts cells fuel ms :
  allMembers fuel contacts cells = Some ms ->
  memberLinks ms = contactLinks contacts /\
  forall m, In m ms ->
    calculateMemberLevel fuel (id m) ms = Some (level m)
    /\ referrals m = referralsOf (id m) ms.
Proof.
  unfold allMembers. intros Hrun.
  destruct (fillMembers_spec (contactLinks contacts) fuel _ [] ms Hrun) as [Hls Hall].
  { apply projectMembers_links. }
  split; [exact Hls|].
  intros m Hm. destruct (Hall m Hm) as [[]|Hd]. exact Hd.
Qed.

(** ** Soundness of the executable checks *)

Lemma rankedb_sound rank ls : rankedb rank ls = true -> acyclic ls.
Proof.
  intros Hr.
  assert (Hstep : forall c p, refers ls c p -> (rank p < rank c)%nat).
  { intros c p Hcp. unfold rankedb in Hr. rewrite forallb_forall in Hr.
    specialize (Hr _ Hcp). simpl in Hr. now apply Nat.ltb_lt. }
  assert (Hpath : forall x y, clos_trans string (refers ls) x y -> (rank y < rank x)%nat).
  { induction 1 as [x y H|x y z _ IH1 _ IH2]; [now apply Hstep | lia]. }
  intros x Hx. apply Hpath in Hx. lia.
Qed.

Lemma resolvedb_sound ls : resolvedb ls = true -> resolved ls.
Proof.
  unfold resolvedb, resolved, refers. rewrite forallb_forall.
  intros H c p Hcp. specialize (H _ Hcp). simpl in H.
  apply existsb_exists in H as (q & Hq & Heq).
  apply String.eqb_eq in Heq. now subst.
Qed.

Lemma uniqueb_sound ids : uniqueb ids = true -> List.NoDup ids.
Proof.
  induction ids as [|x rest IH]; simpl; intros H; [constructor|].
  apply andb_prop in H as [Hx Hrest]. constructor; [|now apply IH].
  intros Hin. apply negb_true_iff in Hx.
  assert (existsb (String.eqb x) rest = true); [|congruence].
  apply existsb_exists. exists x. split; [exact Hin | apply String.eqb_refl].
Qed.

Lemma allMembers_ids contacts cells fuel ms :
  allMembers fuel contacts cells = Some ms ->
  List.map id ms = List.map c_id contacts.
Proof.
  intros H. apply allMembers_spec in H as [Hls _].
  rewrite <- memberLinks_ids, Hls. unfold contactLinks.
  rewrite List.map_map. reflexivity.
Qed.

Lemma member_refers contacts cells fuel ms m r :
  allMembers fuel contacts cells = Some ms ->
  In m ms -> referredBy m = Some r ->
  refers (contactLinks contacts) (id m) r.
Proof.
  intros H Hm Hr. apply allMembers_spec in H as [Hls _].
  rewrite <- Hls. unfold refers, memberLinks. apply in_map_iff.
  exists m. split; [now rewrite Hr | exact Hm].
Qed.

(** One step of the depth computation at a member of the result, when ids
    identify records. *)
Lemma level_step contacts cells fuel ms m :
  uniqueIds (contactLinks contacts) ->
  allMembers fuel contacts cells = Some ms ->
  In m ms ->
  match referredBy m with
  | None => level m = 0%Z
  | Some r =>
    r <> "" /\
    exists fuel' l, fuel = S fuel'
      /\ calculateMemberLevel fuel' r ms = Some l /\ level m = (1 + l)%Z
  end.
Proof.
  intros Huniq Hrun Hm.
  pose proof (allMembers_ids _ _ _ _ Hrun) as Hids.
  destruct (allMembers_spec _ _ _ _ Hrun) as [Hls Hall].
  destruct (Hall m Hm) as [Hlv _].
  assert (Hfind : findMember (id m) ms = Some m).
  { apply findMember_unique; [|exact Hm].
    rewrite <- memberLinks_ids, Hls. exact Huniq. }
  destruct fuel as [|fuel']; [discriminate|].
  rewrite calculateMemberLevel_S, Hfind in Hlv.
  destruct (referredBy m) as [r|] eqn:Hr; [|now injection Hlv].
  assert (Hne : r <> "").
  { eapply contactLinks_truthy, member_refers; eassumption. }
  split; [exact Hne|].
  apply String.eqb_neq in Hne. rewrite Hne in Hlv.
  destruct (calculateMemberLevel fuel' r ms) as [l|] eqn:El; [|discriminate].
  exists fuel', l. injection Hlv as <-. auto.
Qed.

(** C2.  For every list of contacts whose referral relation is acyclic,
    whose referrers all resolve to a contact of the list and whose ids are
    pairwise distinct, the derivation succeeds; the derived members are, in
    the order of the contacts, one per contact, with the id and the
    referrer of the contact; and every derived member has a non-negative
    level, which is 0 when the member has no referrer and one more than the
    level of its referrer when it has one. *)
Theorem level_invariant contacts cells fuel :
  acyclic (contactLinks contacts) ->
  resolved (contactLinks contacts) ->
  uniqueIds (contactLinks contacts) ->
  (length contacts < fuel)%nat ->
  exists ms, allMembers fuel contacts cells = Some ms /\
    memberLinks ms = contactLinks contacts /\
    forall m, In m ms ->
      (0 <= level m)%Z
      /\ (referredBy m = None -> level m = 0%Z)
      /\ (forall r, referredBy m = Some r ->
            exists p, In p ms /\ id p = r /\ level m = (1 + level p)%Z).
Proof.
  intros Hac Hres Huniq Hfuel.
  destruct (allMembers_total contacts cells fuel Hac Hfuel) as [ms Hrun].
  exists ms. split; [exact Hrun|].
  destruct (allMembers_spec _ _ _ _ Hrun) as [Hls Hall].
  split; [exact Hls|].
  intros m Hm.
  pose proof (level_step _ _ _ _ m Huniq Hrun Hm) as Hstep.
  split; [|split].
  - destruct (Hall m Hm) as [Hlv _]. eapply calculateMemberLevel_nonneg, Hlv.
  - intros Hr. now rewrite Hr in Hstep.
  - intros r Hr. rewrite Hr in Hstep.
    destruct Hstep as (_ & fuel' & l & -> & Hl & Hlevel).
    assert (Hin : In r (List.map id ms)).
    { rewrite <- memberLinks_ids, Hls. apply (Hres (id m)).
      eapply member_refers; eassumption. }
    apply in_map_iff in Hin as (p & Hp & Hpin).
    exists p. split; [exact Hpin|]. split; [exact Hp|].
    destruct (Hall p Hpin) as [Hlp _]. rewrite Hp in Hlp.
    rewrite (calculateMemberLevel_mono ms fuel' (S fuel') r l Hl) in Hlp; [|lia].
    injection Hlp as <-. exact Hlevel.
Qed.

Lemma level_invariant_witness :
  acyclic (contactLinks chainABC)
  /\ resolved (contactLinks chainABC)
  /\ uniqueIds (contactLinks chainABC)
  /\ exists ms, allMembers 4 chainABC [] = Some ms /\
       memberLinks ms = contactLinks chainABC /\
       forall m, In m ms ->
         (0 <= level m)%Z
         /\ (referredBy m = None -> level m = 0%Z)
         /\ (forall r, referredBy m = Some r ->
               exists p, In p ms /\ id p = r /\ level m = (1 + level p)%Z).
Proof.
  assert (Hac : acyclic (contactLinks chainABC)).
  { apply (rankedb_sound rankABC). reflexivity. }
  assert (Hres : resolved (contactLinks chainABC)).
  { apply resolvedb_sound. reflexivity. }
  assert (Huniq : uniqueIds (contactLinks chainABC)).
  { apply uniqueb_sound. reflexivity. }
  split; [exact Hac|]. split; [exact Hres|]. split; [exact Huniq|].
  apply (level_invariant chainABC [] 4 Hac Hres Huniq). simpl. lia.
Defined.

Example level_chainABC :
  option_map (List.map (fun m => (id m, level m))) (allMembers 4 chainABC [])
  = Some [("A", 0%Z); ("B", 1%Z); ("C", 2%Z)].
Proof. reflexivity. Qed.

(** ** The budget is immaterial once it is large enough *)

Lemma fold_children_ext (f g : string -> option Z) (l : list string) :
  (forall c d, f c = Some d -> g c = Some d) ->
  forall init t,
    fold_left
      (fun total c =>
         match total, f c with
         | Some t, Some d => Some (t + d)%Z
         | _, _ => None
         end) l init = Some t ->
    fold_left
      (fun total c =>
         match total, g c with
         | Some t, Some d => Some (t + d)%Z
         | _, _ => None
         end) l init = Some t.
Proof.
  intros Hfg. induction l as [|c l IH]; intros init t H; simpl in *; [exact H|].
  destruct init as [a|].
  - destruct (f c) as [d|] eqn:E.
    + rewrite (Hfg c d E). now apply IH.
    + exfalso. clear -H. induction l as [|c' l IH]; simpl in H; [discriminate|auto].
  - exfalso. clear -H. induction l as [|c' l IH]; simpl in H; [discriminate|auto].
Qed.

Lemma calculateTotalDescendants_mono ms : forall fuel fuel' x t,
  calculateTotalDescendants fuel x ms = Some t -> (fuel <= fuel')%nat ->
  calculateTotalDescendants fuel' x ms = Some t.
Proof.
  induction fuel as [|fuel IH]; intros fuel' x t H Hle; [discriminate|].
  destruct fuel' as [|fuel']; [lia|].
  rewrite calculateTotalDescendants_S in *.
  destruct (findMember x ms) as [m|]; [|exact H].
  revert H. apply fold_children_ext.
  intros c d Hc. apply (IH fuel' c d Hc). lia.
Qed.

Lemma fillMembers_mono fuel fuel' : (fuel <= fuel')%nat ->
  forall todo visited res,
    fillMembers fuel visited todo = Some res ->
    fillMembers fuel' visited todo = Some res.
Proof.
  intros Hle. induction todo as [|member rest IH]; intros visited res H.
  - exact H.
  - rewrite fillMembers_cons in *. cbv zeta in *.
    destruct (calculateMemberLevel fuel _ _) as [l|] eqn:Hl; [|discriminate].
    rewrite (calculateMemberLevel_mono _ fuel fuel' _ l Hl Hle).
    destruct (calculateTotalDescendants fuel _ _) as [t|] eqn:Ht; [|discriminate].
    rewrite (calculateTotalDescendants_mono _ fuel fuel' _ t Ht Hle).
    now apply IH.
Qed.

Lemma allMembers_mono contacts cells fuel fuel' ms :
  allMembers fuel contacts cells = Some ms -> (fuel <= fuel')%nat ->
  allMembers fuel' contacts cells = Some ms.
Proof. unfold allMembers. intros H Hle. now apply (fillMembers_mono fuel fuel'). Qed.

(** The referral lists of the result are sound for the relation of the
    contacts. *)
Lemma allMembers_sound contacts cells fuel ms :
  allMembers fuel contacts cells = Some ms ->
  referralsSound (contactLinks contacts) ms.
Proof.
  intros Hrun m c Hm Hc.
  destruct (allMembers_spec _ _ _ _ Hrun) as [Hls Hall].
  destruct (Hall m Hm) as [_ Href]. rewrite Href in Hc.
  rewrite <- Hls. now apply referralsOf_refers.
Qed.

(** C3.  For every list of contacts whose referral relation is acyclic and
    every budget above the number of contacts, the depth computation
    answers for every id, the whole derivation loop (which calls both
    computations for every member) runs to its end, and on its result both
    computations answer for every id. *)
Theorem derivation_terminates contacts cells fuel :
  acyclic (contactLinks contacts) ->
  (length contacts < fuel)%nat ->
  (forall x, exists l,
     calculateMemberLevel fuel x (projectMembers contacts cells) = Some l)
  /\ exists ms, allMembers fuel contacts cells = Some ms
       /\ forall x,
            (exists l, calculateMemberLevel fuel x ms = Some l)
            /\ (exists t, calculateTotalDescendants fuel x ms = Some t).
Proof.
  intros Hac Hfuel. split.
  - intros x. apply calculateMemberLevel_total.
    + now rewrite projectMembers_links.
    + unfold projectMembers. now rewrite List.length_map.
  - destruct (allMembers_total contacts cells fuel Hac Hfuel) as [ms Hrun].
    exists ms. split; [exact Hrun|].
    destruct (allMembers_spec _ _ _ _ Hrun) as [Hls _].
    assert (Hlen : (length ms < fuel)%nat).
    { now rewrite <- memberLinks_length, Hls, contactLinks_length. }
    intros x. split.
    + apply calculateMemberLevel_total; [now rewrite Hls | exact Hlen].
    + apply (calculateTotalDescendants_total (contactLinks contacts));
        [exact Hac | exact Hls | | exact Hlen].
      eapply allMembers_sound, Hrun.
Qed.

Lemma derivation_terminates_witness :
  acyclic (contactLinks chainABC)
  /\ (forall x, exists l,
        calculateMemberLevel 4 x (projectMembers chainABC []) = Some l)
  /\ exists ms, allMembers 4 chainABC [] = Some ms
       /\ forall x,
            (exists l, calculateMemberLevel 4 x ms = Some l)
            /\ (exists t, calculateTotalDescendants 4 x ms = Some t).
Proof.
  assert (Hac : acyclic (contactLinks chainABC)).
  { apply (rankedb_sound rankABC). reflexivity. }
  split; [exact Hac|].
  apply (derivation_terminates chainABC [] 4 Hac). simpl. lia.
Defined.

(** A record that names itself as its referrer exhausts every budget:
    this is the unbounded recursion of the source on a cycle. *)
Lemma self_referral_diverges ms m x :
  findMember x ms = Some m -> referredBy m = Some x -> x <> "" ->
  forall fuel, calculateMemberLevel fuel x ms = None.
Proof.
  intros Hf Hr Hne. apply String.eqb_neq in Hne.
  induction fuel as [|fuel IH]; [reflexivity|].
  now rewrite calculateMemberLevel_S, Hf, Hr, Hne, IH.
Qed.

Example self_referral_A cells fuel :
  calculateMemberLevel fuel "A" (projectMembers [sampleContact "A" (Some "A")] cells)
  = None.
Proof. eapply self_referral_diverges; [reflexivity | reflexivity | discriminate]. Qed.

(** ** The descendant count once every referral list is assigned *)

Lemma fold_children_None (g : string -> option Z) (l : list string) t :
  fold_left
    (fun total c =>
       match total, g c with
       | Some t, Some d => Some (t + d)%Z
       | _, _ => None
       end) l None = Some t -> False.
Proof. induction l as [|c l IH]; simpl; [discriminate | exact IH]. Qed.

Lemma fold_children_sum (g : string -> option Z) (h : string -> Z) (l : list string) :
  (forall c d, In c l -> g c = Some d -> d = h c) ->
  forall a t,
    fold_left
      (fun total c =>
         match total, g c with
         | Some t, Some d => Some (t + d)%Z
         | _, _ => None
         end) l (Some a) = Some t ->
    t = (a + sumZ (List.map h l))%Z.
Proof.
  induction l as [|c l IH]; intros Hgh a t H; simpl in *.
  - injection H as <-. lia.
  - destruct (g c) as [d|] eqn:E.
    + apply IH in H; [|intros c' d' Hc'; apply Hgh; now right].
      rewrite (Hgh c d (or_introl eq_refl) E) in H. lia.
    + now apply fold_children_None in H.
Qed.

Lemma subtree_fold (h : string -> Z) (x : string) (ms : list MemberNode) :
  forall a,
    fold_left
      (fun total l =>
         if strictEq (snd l) x then (total + (1 + h (fst l)))%Z else total)
      (memberLinks ms) a
    = (a + Z.of_nat (length (referralsOf x ms))
       + sumZ (List.map h (referralsOf x ms)))%Z.
Proof.
  unfold referralsOf.
  induction ms as [|m ms IH]; intros a; simpl; [lia|].
  destruct (strictEq (referredBy m) x); simpl; rewrite IH; lia.
Qed.

(** On a list whose referral lists are all assigned, the answer for the id
    of a member is the size of its referral subtree. *)
Lemma calculateTotalDescendants_subtree (ms : list MemberNode) :
  (forall m, In m ms -> referrals m = referralsOf (id m) ms) ->
  forall fuel x t,
    findMember x ms <> None ->
    calculateTotalDescendants fuel x ms = Some t ->
    t = subtreeSize fuel (memberLinks ms) x.
Proof.
  intros Hrefs. induction fuel as [|fuel IH]; intros x t Hfound H; [discriminate|].
  rewrite calculateTotalDescendants_S in H.
  destruct (findMember x ms) as [m|] eqn:Hf; [|now contradiction Hfound].
  apply findMember_Some in Hf as [Hm Hid].
  rewrite (Hrefs m Hm), Hid in H.
  apply (fold_children_sum _ (subtreeSize fuel (memberLinks ms))) in H.
  - simpl. rewrite subtree_fold. lia.
  - intros c d Hc Hd. apply IH; [|exact Hd].
    intros Hnone. apply findMember_None in Hnone. apply Hnone.
    unfold referralsOf in Hc. apply in_map_iff in Hc as (m' & <- & Hm').
    apply filter_In in Hm' as [Hm' _]. now apply in_map.
Qed.

(** Called on the result of the loop, the computation answers with the size
    of the referral subtree for every member. *)
Lemma totalDescendants_after_loop_subtree contacts cells fuel ms m :
  acyclic (contactLinks contacts) ->
  (length contacts < fuel)%nat ->
  allMembers fuel contacts cells = Some ms ->
  In m ms ->
  calculateTotalDescendants fuel (id m) ms
  = Some (subtreeSize fuel (contactLinks contacts) (id m)).
Proof.
  intros Hac Hfuel Hrun Hm.
  destruct (allMembers_spec _ _ _ _ Hrun) as [Hls Hall].
  destruct (calculateTotalDescendants_total (contactLinks contacts) ms fuel (id m))
    as [t Ht]; [exact Hac | exact Hls | eapply allMembers_sound, Hrun | |].
  { now rewrite <- memberLinks_length, Hls, contactLinks_length. }
  rewrite Ht. f_equal. rewrite <- Hls.
  apply calculateTotalDescendants_subtree; [| |exact Ht].
  - intros m' Hm'. now destruct (Hall m' Hm').
  - intros Hnone. apply findMember_None in Hnone. apply Hnone. now apply in_map.
Qed.

(** ** The descendant count inside the loop *)

(** C1.  On the contacts A (no referrer), B (referred by A), C (referred
    by B), in this order, the loop stores 1 as the descendant count of A,
    for every sufficient budget, while the referral subtree of A has two
    members (B and C): when A is visited the referral list of B is still
    the empty list of the projection. *)
Theorem totalDescendants_chainABC fuel :
  option_map (List.map derived) (allMembers (4 + fuel) chainABC [])
  = Some [("A", ["B"], 0%Z, 1%Z); ("B", ["C"], 1%Z, 1%Z); ("C", [], 2%Z, 0%Z)]
  /\ subtreeSize 3 (contactLinks chainABC) "A" = 2%Z.
Proof.
  split; [|reflexivity].
  destruct (allMembers 4 chainABC []) as [ms|] eqn:Hrun; [|discriminate].
  rewrite (allMembers_mono chainABC [] 4 (4 + fuel) ms Hrun); [|lia].
  vm_compute in Hrun. injection Hrun as <-. reflexivity.
Qed.

(** The computation itself counts the whole subtree once every referral
    list is assigned: called again on the result of the loop it answers 2
    for A. *)
Example totalDescendants_after_loop :
  (allMembers 4 chainABC [] ≫= calculateTotalDescendants 4 "A") = Some 2%Z.
Proof. reflexivity. Qed.

(** When the same contacts arrive children first, the loop stores 2. *)
Example totalDescendants_chainCBA :
  option_map (List.map derived) (allMembers 4 chainCBA [])
  = Some [("C", [], 2%Z, 0%Z); ("B", ["C"], 1%Z, 1%Z); ("A", ["B"], 0%Z, 2%Z)].
Proof. reflexivity. Qed.

(** ** The partition *)

Lemma isStandby_negb m : isStandby m = negb (isConnected m).
Proof.
  unfold isStandby, isConnected.
  destruct (truthy (referredBy m)), (referrals m); reflexivity.
Qed.

Lemma isConnected_true m :
  isConnected m = true <-> truthy (referredBy m) = true \/ referrals m <> [].
Proof.
  unfold isConnected. rewrite orb_true_iff.
  destruct (referrals m) as [|c l]; simpl.
  - split; intros [H|H]; auto; try discriminate; try now contradiction H.
  - split; intros _; right; [discriminate | reflexivity].
Qed.

Lemma isStandby_true m :
  isStandby m = true <-> truthy (referredBy m) = false /\ referrals m = [].
Proof.
  unfold isStandby. rewrite andb_true_iff, negb_true_iff.
  destruct (referrals m); simpl; split; intros [H1 H2]; auto; discriminate.
Qed.

(** C4.  For every list of members, each member of the list is in the
    connected list exactly when it has a referrer or at least one referral,
    in the standby list exactly when it has neither, in one of the two
    lists and not in both. *)
Theorem partition_total_disjoint (ms : list MemberNode) (m : MemberNode) :
  In m ms ->
  (In m (connectedOf ms) <-> truthy (referredBy m) = true \/ referrals m <> [])
  /\ (In m (standbyOf ms) <-> truthy (referredBy m) = false /\ referrals m = [])
  /\ (In m (connectedOf ms) \/ In m (standbyOf ms))
  /\ ~ (In m (connectedOf ms) /\ In m (standbyOf ms)).
Proof.
  intros Hm. unfold connectedOf, standbyOf. rewrite !filter_In.
  rewrite <- isConnected_true, <- isStandby_true, isStandby_negb.
  destruct (isConnected m); simpl; intuition discriminate.
Qed.

Lemma partition_total_disjoint_witness :
  exists ms m, allMembers 4 chainABC [] = Some ms /\ In m ms
    /\ In m (connectedOf ms) /\ ~ In m (standbyOf ms).
Proof.
  destruct (allMembers 4 chainABC []) as [ms|] eqn:Hrun; [|discriminate].
  destruct ms as [|m ms]; [discriminate|].
  exists (m :: ms), m. split; [reflexivity|]. split; [now left|].
  assert (Hc : isConnected m = true).
  { vm_compute in Hrun. injection Hrun as <- _. reflexivity. }
  destruct (partition_total_disjoint (m :: ms) m (or_introl eq_refl))
    as (_ & _ & _ & Hnot).
  assert (Hin : In m (connectedOf (m :: ms))).
  { unfold connectedOf. apply filter_In. split; [now left | exact Hc]. }
  split; [exact Hin|]. intros Hs. apply Hnot. now split.
Defined.

(** Nothing is in either list that is not a member, and the two lists
    together are as long as the list they come from. *)
Lemma partition_sizes (ms : list MemberNode) :
  (length (connectedOf ms) + length (standbyOf ms) = length ms)%nat.
Proof.
  unfold connectedOf, standbyOf. induction ms as [|m ms IH]; [reflexivity|].
  simpl. rewrite isStandby_negb. destruct (isConnected m); simpl; lia.
Qed.

(** The lone contact D is a standby member of level 0 without descendants. *)
Example standby_loneD :
  option_map (fun ms => (List.map derived (connectedOf ms), List.map derived (standbyOf ms)))
    (allMembers 2 loneD [])
  = Some ([], [("D", [], 0%Z, 0%Z)]).
Proof. reflexivity. Qed.

(** The chain A, B, C is connected throughout. *)
Example connected_chainABC :
  option_map (fun p => (List.map id (fst p), List.map id (snd p)))
    (processMembers 4 false false chainABC [])
  = Some (["A"; "B"; "C"], []).
Proof. reflexivity. Qed.

(** ** The visibility filter *)

Lemma network_visible visibleLevels expandedNodes focusedLevel connectedMembers :
  fst (network visibleLevels expandedNodes focusedLevel connectedMembers)
  = visibleMembersOf visibleLevels expandedNodes focusedLevel connectedMembers.
Proof.
  unfold network. destruct connectedMembers; reflexivity.
Qed.

Lemma network_edges visibleLevels expandedNodes focusedLevel connectedMembers :
  snd (network visibleLevels expandedNodes focusedLevel connectedMembers)
  = edgesOf focusedLevel
      (visibleMembersOf visibleLevels expandedNodes focusedLevel connectedMembers).
Proof.
  unfold network. destruct connectedMembers; reflexivity.
Qed.

Lemma isVisible_unfocused visibleLevels expandedNodes m :
  isVisible visibleLevels expandedNodes None m = true <->
  level m ∈ visibleLevels
  /\ (level m = 0%Z \/ id m ∈ expandedNodes
      \/ exists r, referredBy m = Some r /\ r <> "" /\ r ∈ expandedNodes).
Proof.
  unfold isVisible.
  rewrite andb_true_iff, !orb_true_iff, !bool_decide_eq_true, Z.eqb_eq.
  split; intros [Hl He]; (split; [exact Hl|]).
  - destruct He as [[He|He]|He]; auto.
    destruct (referredBy m) as [r|]; [|discriminate].
    apply andb_true_iff in He as [Ht Hr].
    apply bool_decide_eq_true in Hr. right; right. exists r.
    split; [reflexivity|]. split; [|exact Hr].
    apply truthy_Some_inv in Ht as (s & [= <-] & Hs). exact Hs.
  - destruct He as [He|[He|(r & Hr & Hne & Hin)]]; auto.
    right. rewrite Hr. apply andb_true_iff. split.
    + simpl. apply String.eqb_neq in Hne. now rewrite Hne.
    + now apply bool_decide_eq_true.
Qed.

Lemma isVisible_focused visibleLevels expandedNodes f m :
  isVisible visibleLevels expandedNodes (Some f) m = true <-> level m = f.
Proof. unfold isVisible. apply Z.eqb_eq. Qed.

(** Every edge runs from a visible member to a visible member that names
    it as its referrer. *)
Lemma edgesOf_endpoints focusedLevel visibleMembers e :
  In e (edgesOf focusedLevel visibleMembers) ->
  exists s t, In s visibleMembers /\ In t visibleMembers
    /\ id s = source e /\ id t = target e /\ referredBy t = Some (source e).
Proof.
  unfold edgesOf. intros He. apply in_flat_map in He as (t & Ht & He).
  unfold edgeOf in He. destruct (referredBy t) as [r|] eqn:Hr; [|destruct He].
  destruct (truthy (Some r)); simpl in He; [|destruct He].
  destruct (findMember r visibleMembers) as [s|] eqn:Hs; [|destruct He].
  destruct He as [<-|[]]. simpl.
  apply findMember_Some in Hs as [Hs Hid].
  exists s, t. auto.
Qed.

(** C5.  For every filter state and every connected member: without a
    focused level the member is visible exactly when its level is in the
    visible-level set and its level is 0, or its id is expanded, or it has a
    referrer whose id is expanded; with a focused level it is visible
    exactly when its level is that level; and both endpoints of every edge
    are visible members. *)
Theorem visibility_rule (visibleLevels : gset Z) (expandedNodes : gset string)
    (focusedLevel : option Z) (connectedMembers : list MemberNode) (m : MemberNode) :
  In m connectedMembers ->
  let shown := network visibleLevels expandedNodes focusedLevel connectedMembers in
  (focusedLevel = None ->
     (In m (fst shown) <->
      level m ∈ visibleLevels
      /\ (level m = 0%Z \/ id m ∈ expandedNodes
          \/ exists r, referredBy m = Some r /\ r <> "" /\ r ∈ expandedNodes)))
  /\ (forall f, focusedLevel = Some f -> (In m (fst shown) <-> level m = f))
  /\ (forall e, In e (snd shown) ->
        exists s t, In s (fst shown) /\ In t (fst shown)
          /\ id s = source e /\ id t = target e).
Proof.
  intros Hm shown. unfold shown. rewrite network_visible, network_edges.
  split; [|split].
  - intros ->. unfold visibleMembersOf.
    rewrite filter_In, isVisible_unfocused. tauto.
  - intros f ->. unfold visibleMembersOf.
    rewrite filter_In, isVisible_focused. tauto.
  - intros e He. apply edgesOf_endpoints in He as (s & t & Hs & Ht & H1 & H2 & _).
    exists s, t. auto.
Qed.

(** ** Expansion *)

Lemma isVisible_mono visibleLevels (E E' : gset string) focusedLevel m :
  E ⊆ E' ->
  isVisible visibleLevels E focusedLevel m = true ->
  isVisible visibleLevels E' focusedLevel m = true.
Proof.
  intros Hsub. destruct focusedLevel as [f|].
  - rewrite !isVisible_focused. auto.
  - rewrite !isVisible_unfocused. intros [Hl He]. split; [exact Hl|].
    destruct He as [He|[He|(r & Hr & Hne & Hin)]]; auto.
    right; right. exists r. auto.
Qed.

(** C6.  For a fixed member list, visible-level set and focused level, every
    member visible with the expanded set [E] is visible with [E ∪ {n}]. *)
Theorem visibility_monotone (visibleLevels : gset Z) (E : gset string) (n : string)
    (focusedLevel : option Z) (connectedMembers : list MemberNode) (m : MemberNode) :
  In m (fst (network visibleLevels E focusedLevel connectedMembers)) ->
  In m (fst (network visibleLevels (E ∪ {[ n ]}) focusedLevel connectedMembers)).
Proof.
  rewrite !network_visible. unfold visibleMembersOf. rewrite !filter_In.
  intros [Hm Hv]. split; [exact Hm|].
  apply (isVisible_mono visibleLevels E); [set_solver | exact Hv].
Qed.

(** C7.  The toggle looks the node up among the connected members.  When
    the node it finds has no referral, or when it finds none, the expanded
    set is returned unchanged; when the node has a referral, the membership
    of its id is flipped and no other id is touched. *)
Theorem toggle_only_with_referrals (connectedMembers : list MemberNode)
    (nodeId : string) (prev : gset string) :
  let next := toggleNodeExpansion connectedMembers nodeId prev in
  (forall member, findMember nodeId connectedMembers = Some member ->
     referrals member = [] -> next = prev)
  /\ (findMember nodeId connectedMembers = None -> next = prev)
  /\ (forall member, findMember nodeId connectedMembers = Some member ->
        referrals member <> [] ->
        (nodeId ∈ next <-> nodeId ∉ prev)
        /\ forall x, x <> nodeId -> (x ∈ next <-> x ∈ prev)).
Proof.
  intros next. unfold next, toggleNodeExpansion. split; [|split].
  - intros member -> ->. reflexivity.
  - intros ->. reflexivity.
  - intros member -> Hne.
    destruct (referrals member) as [|c l]; [now contradiction Hne|]. simpl.
    case_bool_decide as Hin.
    + split; [|intros x Hx]; rewrite elem_of_difference, elem_of_singleton; tauto.
    + split; [|intros x Hx]; rewrite elem_of_union, elem_of_singleton; tauto.
Qed.

Lemma visibility_rule_witness :
  In memberB membersABC
  /\ In memberB (fst (network initialVisibleLevels {[ "A" ]} None membersABC)).
Proof.
  assert (Hin : In memberB membersABC) by (right; left; reflexivity).
  split; [exact Hin|].
  destruct (visibility_rule initialVisibleLevels {[ "A" ]} None membersABC memberB Hin)
    as [Hrule _].
  apply (Hrule eq_refl). split.
  - unfold initialVisibleLevels. simpl. set_solver.
  - right; right. exists "A". split; [reflexivity|]. split; [discriminate|].
    now apply elem_of_singleton.
Defined.

Lemma visibility_monotone_witness :
  In memberA (fst (network initialVisibleLevels ∅ None membersABC))
  /\ In memberA (fst (network initialVisibleLevels (∅ ∪ {[ "B" ]}) None membersABC)).
Proof.
  assert (Hv : In memberA (fst (network initialVisibleLevels ∅ None membersABC))).
  { rewrite network_visible. unfold visibleMembersOf. apply filter_In.
    split; [left; reflexivity|]. apply isVisible_unfocused. split.
    - unfold initialVisibleLevels. simpl. set_solver.
    - left. reflexivity. }
  split; [exact Hv|].
  exact (visibility_monotone initialVisibleLevels ∅ "B" None membersABC memberA Hv).
Defined.

Lemma toggle_only_with_referrals_witness :
  toggleNodeExpansion membersABC "C" {[ "A" ]} = {[ "A" ]}
  /\ "A" ∈ toggleNodeExpansion membersABC "A" ∅.
Proof.
  split.
  - destruct (toggle_only_with_referrals membersABC "C" {[ "A" ]}) as [Hleaf _].
    exact (Hleaf memberC eq_refl eq_refl).
  - destruct (toggle_only_with_referrals membersABC "A" ∅) as (_ & _ & Hflip).
    destruct (Hflip memberA eq_refl) as [Hin _]; [discriminate|].
    apply Hin. apply not_elem_of_empty.
Defined.

(** A toggle that expands a node only adds visible members. *)
Lemma toggle_expand_monotone (visibleLevels : gset Z) (E : gset string) (n : string)
    (focusedLevel : option Z) (connectedMembers : list MemberNode) (m : MemberNode) :
  n ∉ E ->
  In m (fst (network visibleLevels E focusedLevel connectedMembers)) ->
  In m (fst (network visibleLevels (toggleNodeExpansion connectedMembers n E)
               focusedLevel connectedMembers)).
Proof.
  intros Hn. rewrite !network_visible. unfold visibleMembersOf. rewrite !filter_In.
  intros [Hm Hv]. split; [exact Hm|].
  apply (isVisible_mono visibleLevels E); [|exact Hv].
  unfold toggleNodeExpansion.
  destruct (findMember n connectedMembers) as [member|]; [|reflexivity].
  destruct (0 <? length (referrals member))%nat; [|reflexivity].
  rewrite bool_decide_eq_false_2 by exact Hn. apply union_subseteq_l.
Qed.

(** With level 1 focused only the members of level 1 are shown, whatever
    is expanded. *)
Example focus_level_one (E : gset string) :
  List.map id (fst (network initialVisibleLevels E (Some 1%Z) membersABC)) = ["B"].
Proof. reflexivity. Qed.

(** ** A referrer that is not in the list *)

Lemma visible_member visibleLevels expandedNodes focusedLevel ms m :
  In m (visibleMembersOf visibleLevels expandedNodes focusedLevel (connectedOf ms)) ->
  In m ms.
Proof.
  unfold visibleMembersOf, connectedOf. intros H.
  apply filter_In in H as [H _]. now apply filter_In in H as [H _].
Qed.

(** C10.  When ids are pairwise distinct, for a derived member whose
    referrer is not the id of any contact: the depth computation answers 0
    for the referrer, the member has level exactly 1, it is one of the
    connected members, and no edge of the diagram ends at it, whatever the
    filter state. *)
Theorem dangling_referrer_level contacts cells fuel ms m r :
  uniqueIds (contactLinks contacts) ->
  allMembers fuel contacts cells = Some ms ->
  In m ms ->
  referredBy m = Some r ->
  ~ In r (List.map c_id contacts) ->
  calculateMemberLevel fuel r ms = Some 0%Z
  /\ level m = 1%Z
  /\ In m (connectedOf ms)
  /\ forall (visibleLevels : gset Z) (expandedNodes : gset string) focusedLevel e,
       In e (snd (network visibleLevels expandedNodes focusedLevel (connectedOf ms))) ->
       target e <> id m.
Proof.
  intros Huniq Hrun Hm Hr Hdangling.
  pose proof (allMembers_ids _ _ _ _ Hrun) as Hids.
  assert (Hnone : findMember r ms = None).
  { destruct (findMember r ms) as [p|] eqn:Hf; [|reflexivity].
    exfalso. apply Hdangling. apply findMember_Some in Hf as [Hp <-].
    rewrite <- Hids. now apply in_map. }
  pose proof (level_step _ _ _ _ m Huniq Hrun Hm) as Hstep.
  rewrite Hr in Hstep. destruct Hstep as (Hne & fuel' & l & -> & Hl & Hlevel).
  assert (Hzero : l = 0%Z).
  { destruct fuel' as [|fuel'']; [discriminate|].
    rewrite calculateMemberLevel_S, Hnone in Hl. now injection Hl. }
  subst l. split; [|split; [|split]].
  - now rewrite calculateMemberLevel_S, Hnone.
  - exact Hlevel.
  - unfold connectedOf. apply filter_In. split; [exact Hm|].
    unfold isConnected. rewrite Hr. simpl.
    apply String.eqb_neq in Hne. now rewrite Hne.
  - intros visibleLevels expandedNodes focusedLevel e He Htarget.
    rewrite network_edges in He.
    apply edgesOf_endpoints in He as (s & t & Hs & Ht & Hsid & Htid & Href).
    apply visible_member in Hs, Ht.
    assert (Hnd : List.NoDup (List.map id ms)).
    { rewrite Hids. unfold uniqueIds, contactLinks in Huniq.
      now rewrite List.map_map in Huniq. }
    assert (Htm : Some t = Some m).
    { rewrite <- (findMember_unique ms t Hnd Ht), <- (findMember_unique ms m Hnd Hm).
      now rewrite Htid, Htarget. }
    injection Htm as ->. rewrite Hr in Href. injection Href as ->.
    apply Hdangling. rewrite <- Hids, <- Hsid. now apply in_map.
Qed.

Lemma dangling_referrer_level_witness :
  exists ms m,
    allMembers 2 danglingB [] = Some ms
    /\ In m ms /\ referredBy m = Some "A"
    /\ level m = 1%Z /\ In m (connectedOf ms).
Proof.
  destruct (allMembers 2 danglingB []) as [ms|] eqn:Hrun; [|discriminate].
  assert (Hms : exists m, ms = [m] /\ referredBy m = Some "A").
  { vm_compute in Hrun. injection Hrun as <-. eexists. split; reflexivity. }
  destruct Hms as (m & -> & Hr).
  exists [m], m.
  assert (Huniq : uniqueIds (contactLinks danglingB)).
  { apply uniqueb_sound. reflexivity. }
  assert (Hd : ~ In "A" (List.map c_id danglingB)).
  { simpl. intros [H|[]]. discriminate. }
  split; [reflexivity|]. split; [now left|]. split; [exact Hr|].
  destruct (dangling_referrer_level danglingB [] 2 [m] m "A" Huniq Hrun
              (or_introl eq_refl) Hr Hd) as (_ & Hlevel & Hconn & _).
  split; [exact Hlevel | exact Hconn].
Defined.

(** ** What the loop leaves untouched *)

Lemma fillMembers_frame fuel : forall todo visited res,
  fillMembers fuel visited todo = Some res ->
  List.map resetDerived res = List.map resetDerived (visited ++ todo).
Proof.
  induction todo as [|member rest IH]; intros visited res Hrun.
  - simpl in Hrun. injection Hrun as <-. now rewrite List.app_nil_r.
  - rewrite fillMembers_cons in Hrun. cbv zeta in Hrun.
    destruct (calculateMemberLevel fuel _ _) as [l|]; [|discriminate].
    destruct (calculateTotalDescendants fuel _ _) as [t|]; [|discriminate].
    rewrite (IH _ _ Hrun), app_cons_assoc, !List.map_app. reflexivity.
Qed.

Lemma resetDerived_toMember cm contact :
  resetDerived (toMember cm contact) = toMember cm contact.
Proof. reflexivity. Qed.

(** The derivation keeps one member per contact, in the order of the
    contacts, and writes nothing but the referral list, the level and the
    descendant count: with these three fields reset, the result is the
    projection of the contacts. *)
Theorem allMembers_frame contacts cells fuel ms :
  allMembers fuel contacts cells = Some ms ->
  List.map resetDerived ms = projectMembers contacts cells
  /\ length ms = length contacts.
Proof.
  unfold allMembers. intros Hrun. apply fillMembers_frame in Hrun. simpl in Hrun.
  assert (Hproj : List.map resetDerived (projectMembers contacts cells)
                  = projectMembers contacts cells).
  { unfold projectMembers. rewrite List.map_map. apply List.map_ext.
    intros c. apply resetDerived_toMember. }
  rewrite Hproj in Hrun. split; [exact Hrun|].
  apply (f_equal (@length _)) in Hrun.
  rewrite List.length_map in Hrun. unfold projectMembers in Hrun.
  now rewrite List.length_map in Hrun.
Qed.

Lemma allMembers_frame_witness :
  exists ms, allMembers 4 chainABC [] = Some ms
    /\ List.map resetDerived ms = projectMembers chainABC []
    /\ length ms = 3%nat.
Proof.
  destruct (allMembers 4 chainABC []) as [ms|] eqn:Hrun; [|discriminate].
  exists ms. split; [reflexivity|].
  exact (allMembers_frame chainABC [] 4 ms Hrun).
Defined.

(** ** Resolving the cell of a contact *)

Lemma find_app_l {A} (p : A -> bool) (l1 l2 : list A) x :
  List.find p l1 = Some x -> List.find p (l1 ++ l2) = Some x.
Proof.
  induction l1 as [|a l1 IH]; simpl; [discriminate|].
  destruct (p a); [auto | exact IH].
Qed.

Lemma find_app_r {A} (p : A -> bool) (l1 l2 : list A) :
  List.find p l1 = None -> List.find p (l1 ++ l2) = List.find p l2.
Proof.
  induction l1 as [|a l1 IH]; simpl; [reflexivity|].
  destruct (p a); [discriminate | exact IH].
Qed.

Lemma cellsMap_fold cells : forall (acc : gmap string Cell) k,
  fold_left (fun acc c => <[cell_id c := c]> acc) cells acc !! k
  = match List.find (fun c => String.eqb (cell_id c) k) (rev cells) with
    | Some c => Some c
    | None => acc !! k
    end.
Proof.
  induction cells as [|c cells IH]; intros acc k; simpl; [reflexivity|].
  rewrite IH.
  destruct (List.find (fun c0 => String.eqb (cell_id c0) k) (rev cells)) as [c'|] eqn:E.
  - now rewrite (find_app_l _ _ [c] _ E).
  - rewrite (find_app_r _ _ _ E). simpl.
    destruct (String.eqb (cell_id c) k) eqn:Ek.
    + apply String.eqb_eq in Ek. subst k. now rewrite lookup_insert_eq.
    + apply String.eqb_neq in Ek. now rewrite lookup_insert_ne.
Qed.

(** The map built from the cells answers with the last cell of the list
    that has the id asked for. *)
Lemma cellsMap_lookup cells k :
  cellsMap cells !! k = List.find (fun c => String.eqb (cell_id c) k) (rev cells).
Proof.
  unfold cellsMap. rewrite cellsMap_fold.
  destruct (List.find _ (rev cells)); [reflexivity | apply lookup_empty].
Qed.

(** A contact without a cell id, or whose cell id is the id of no cell,
    is shown with the two placeholder texts. *)
Theorem toMember_missing_cell cells contact :
  (forall k, c_cell_id contact = Some k -> k <> "" ->
             ~ In k (List.map cell_id cells)) ->
  leader (toMember (cellsMap cells) contact) = "Sem líder"
  /\ cell (toMember (cellsMap cells) contact) = "Sem célula".
Proof.
  intros Hmissing. unfold toMember. simpl.
  destruct (c_cell_id contact) as [k|]; [|split; reflexivity].
  simpl. destruct (String.eqb k "") eqn:Ek; simpl; [split; reflexivity|].
  apply String.eqb_neq in Ek.
  rewrite cellsMap_lookup.
  destruct (List.find _ (rev cells)) as [c|] eqn:E; [|split; reflexivity].
  exfalso. apply find_some in E as [Hin Hk].
  apply String.eqb_eq in Hk. apply (Hmissing k eq_refl Ek).
  rewrite <- Hk. apply in_map. now apply in_rev.
Qed.

Lemma toMember_missing_cell_witness :
  leader (toMember (cellsMap [sampleCell "c1" "Alfa" "Rui"]) (sampleContact "A" None))
  = "Sem líder"
  /\ cell (toMember (cellsMap [sampleCell "c1" "Alfa" "Rui"]) (sampleContact "A" None))
     = "Sem célula".
Proof.
  apply (toMember_missing_cell [sampleCell "c1" "Alfa" "Rui"] (sampleContact "A" None)).
  intros k Hk. discriminate.
Defined.

(** When several cells share the id of the contact's cell, the member
    shows the name and the leader of the last of them, each replaced by its
    placeholder when it is missing or empty. *)
Theorem toMember_last_cell cells1 cells2 c contact k :
  c_cell_id contact = Some k -> k <> "" ->
  cell_id c = k ->
  ~ In k (List.map cell_id cells2) ->
  leader (toMember (cellsMap (cells1 ++ c :: cells2)) contact)
  = orElse (cell_leader_name c) "Sem líder"
  /\ cell (toMember (cellsMap (cells1 ++ c :: cells2)) contact)
     = orElse (cell_name c) "Sem célula".
Proof.
  intros Hk Hne Hc Hlast. unfold toMember. simpl. rewrite Hk. simpl.
  apply String.eqb_neq in Hne. rewrite Hne. simpl.
  rewrite cellsMap_lookup, List.rev_app_distr. simpl. rewrite <- List.app_assoc.
  assert (E : List.find (fun c0 => String.eqb (cell_id c0) k) (rev cells2) = None).
  { destruct (List.find _ (rev cells2)) as [c'|] eqn:E; [|reflexivity].
    exfalso. apply find_some in E as [Hin Heq]. apply String.eqb_eq in Heq.
    apply Hlast. rewrite <- Heq. apply in_map. now apply in_rev. }
  rewrite (find_app_r _ _ _ E). simpl.
  rewrite Hc, String.eqb_refl. split; reflexivity.
Qed.

Lemma toMember_last_cell_witness :
  cell (toMember (cellsMap ([sampleCell "c1" "Alfa" "Rui"] ++ sampleCell "c1" "Beta" "" :: []))
          (sampleContactIn "A" "c1"))
  = "Beta"
  /\ leader (toMember (cellsMap ([sampleCell "c1" "Alfa" "Rui"] ++ sampleCell "c1" "Beta" "" :: []))
               (sampleContactIn "A" "c1"))
     = "Sem líder".
Proof.
  destruct (toMember_last_cell [sampleCell "c1" "Alfa" "Rui"] [] (sampleCell "c1" "Beta" "")
              (sampleContactIn "A" "c1") "c1") as [Hl Hc];
    [reflexivity | discriminate | reflexivity | intros [] |].
  split; [exact Hc | exact Hl].
Defined.

(** ** The referral lists *)

(** In the result of the derivation, the referral list of a member holds
    exactly the ids of the members that name it as their referrer. *)
Theorem referrals_complete contacts cells fuel ms m c :
  allMembers fuel contacts cells = Some ms ->
  In m ms ->
  (In c (referrals m) <->
   exists m', In m' ms /\ id m' = c /\ referredBy m' = Some (id m)).
Proof.
  intros Hrun Hm.
  destruct (allMembers_spec _ _ _ _ Hrun) as [_ Hall].
  destruct (Hall m Hm) as [_ ->]. unfold referralsOf.
  rewrite in_map_iff. split.
  - intros (m' & Hid & Hin). apply filter_In in Hin as [Hin Hr].
    apply strictEq_true in Hr. eauto.
  - intros (m' & Hin & Hid & Hr). exists m'. split; [exact Hid|].
    apply filter_In. split; [exact Hin | now apply strictEq_true].
Qed.

Lemma referrals_complete_witness :
  exists ms m, allMembers 4 chainABC [] = Some ms /\ In m ms /\ id m = "A"
    /\ In "B" (referrals m).
Proof.
  destruct (allMembers 4 chainABC []) as [ms|] eqn:Hrun; [|discriminate].
  assert (Hms : exists a b c, ms = [a; b; c] /\ id a = "A" /\ id b = "B"
                              /\ referredBy b = Some "A").
  { vm_compute in Hrun. injection Hrun as <-. do 3 eexists. repeat split. }
  destruct Hms as (a & b & c & -> & Ha & Hb & Hr).
  exists [a; b; c], a. split; [reflexivity|]. split; [now left|]. split; [exact Ha|].
  apply (referrals_complete chainABC [] 4 [a; b; c] a "B" Hrun (or_introl eq_refl)).
  exists b. split; [right; now left|]. split; [exact Hb|]. now rewrite Ha.
Defined.

(** ** The descendant count the loop stores *)

Lemma findMember_view x ms : forall ms',
  referralView ms = referralView ms' ->
  option_map (fun m => (id m, referrals m)) (findMember x ms)
  = option_map (fun m => (id m, referrals m)) (findMember x ms').
Proof.
  induction ms as [|m ms IH]; intros [|m' ms'] Heq; try discriminate; [reflexivity|].
  simpl in Heq. injection Heq as Hid Hr Hrest.
  unfold findMember in *. simpl. rewrite Hid.
  destruct (String.eqb (id m') x).
  - simpl. now rewrite Hid, Hr.
  - now apply IH.
Qed.

Lemma fold_children_ext_in (g h : string -> option Z) (l : list string) :
  (forall c, In c l -> g c = h c) ->
  forall init,
    fold_left
      (fun total c =>
         match total, g c with
         | Some t, Some d => Some (t + d)%Z
         | _, _ => None
         end) l init
    = fold_left
        (fun total c =>
           match total, h c with
           | Some t, Some d => Some (t + d)%Z
           | _, _ => None
           end) l init.
Proof.
  induction l as [|c l IH]; intros Hgh init; simpl; [reflexivity|].
  rewrite (Hgh c (or_introl eq_refl)). apply IH.
  intros c' Hc'. apply Hgh. now right.
Qed.

(** The descendant count only depends on the ids and the referral lists. *)
Lemma calculateTotalDescendants_view fuel : forall x ms ms',
  referralView ms = referralView ms' ->
  calculateTotalDescendants fuel x ms = calculateTotalDescendants fuel x ms'.
Proof.
  induction fuel as [|fuel IH]; intros x ms ms' Heq; [reflexivity|].
  rewrite !calculateTotalDescendants_S.
  pose proof (findMember_view x ms ms' Heq) as Hf.
  destruct (findMember x ms) as [m|], (findMember x ms') as [m'|];
    simpl in Hf; try discriminate; [|reflexivity].
  injection Hf as _ Hr. rewrite Hr.
  apply fold_children_ext_in. intros c _. now apply IH.
Qed.

Lemma referralView_app ms ms' :
  referralView (ms ++ ms') = referralView ms ++ referralView ms'.
Proof. unfold referralView. apply List.map_app. Qed.

Lemma referralView_empty ms :
  (forall m, In m ms -> referrals m = []) ->
  referralView ms = List.map (fun i => (i, [])) (List.map id ms).
Proof.
  intros H. unfold referralView. rewrite List.map_map. apply List.map_ext_in.
  intros m Hm. now rewrite (H m Hm).
Qed.

Lemma referralView_blank ms :
  referralView (List.map blank ms) = List.map (fun i => (i, [])) (List.map id ms).
Proof. unfold referralView. rewrite !List.map_map. reflexivity. Qed.

(** What the loop stores in a member is the count computed on the list in
    which the members after it still have no referral. *)
Lemma fillMembers_stores fuel : forall todo visited res,
  (forall m, In m todo -> referrals m = []) ->
  fillMembers fuel visited todo = Some res ->
  exists processed,
    res = visited ++ processed
    /\ List.map id processed = List.map id todo
    /\ forall pre m post, processed = pre ++ m :: post ->
         calculateTotalDescendants fuel (id m)
           (visited ++ pre ++ m :: List.map blank post)
         = Some (totalDescendants m).
Proof.
  induction todo as [|member rest IH]; intros visited res Hempty Hrun.
  - simpl in Hrun. injection Hrun as <-. exists [].
    split; [now rewrite List.app_nil_r|]. split; [reflexivity|].
    intros [|a pre] m post H; discriminate.
  - rewrite fillMembers_cons in Hrun. cbv zeta in Hrun.
    set (member1 := set_referrals member
                      (referralsOf (id member) (visited ++ member :: rest))) in *.
    destruct (calculateMemberLevel fuel (id member1) (visited ++ member1 :: rest))
      as [l|]; [|discriminate].
    set (member2 := set_level member1 l) in *.
    destruct (calculateTotalDescendants fuel (id member2) (visited ++ member2 :: rest))
      as [t|] eqn:Ht; [|discriminate].
    set (member3 := set_totalDescendants member2 t) in *.
    destruct (IH (visited ++ [member3]) res) as (processed & Hres & Hids & Hsplit).
    { intros m Hm. apply Hempty. now right. }
    { exact Hrun. }
    exists (member3 :: processed).
    split; [now rewrite Hres, app_cons_assoc|].
    split; [simpl; now rewrite Hids|].
    intros [|a pre] m post Heq; simpl in Heq; injection Heq as H1 H2.
    + subst m post. simpl. change (totalDescendants member3) with t. rewrite <- Ht.
      apply calculateTotalDescendants_view.
      rewrite !referralView_app. simpl. f_equal. f_equal.
      rewrite referralView_blank, Hids. symmetry. apply referralView_empty.
      intros m Hm. apply Hempty. now right.
    + subst a. specialize (Hsplit pre m post H2).
      rewrite app_cons_assoc in Hsplit. exact Hsplit.
Qed.

Lemma projectMembers_blank contacts cells m :
  In m (projectMembers contacts cells) -> referrals m = [].
Proof.
  unfold projectMembers. intros Hm. apply in_map_iff in Hm as (c & <- & _).
  reflexivity.
Qed.

Lemma allMembers_stores contacts cells fuel ms :
  allMembers fuel contacts cells = Some ms ->
  forall pre m post, ms = pre ++ m :: post ->
    calculateTotalDescendants fuel (id m) (pre ++ m :: List.map blank post)
    = Some (totalDescendants m).
Proof.
  unfold allMembers. intros Hrun pre m post ->.
  destruct (fillMembers_stores fuel _ [] _ (projectMembers_blank contacts cells) Hrun)
    as (processed & Hres & _ & Hsplit).
  simpl in Hres. subst processed. exact (Hsplit pre m post eq_refl).
Qed.

(** The descendant count stored in a member is the one computed when the
    members before it have their referral lists, the member has its own,
    and the members after it have none yet. *)
Theorem totalDescendants_stored contacts cells fuel pre m post :
  allMembers fuel contacts cells = Some (pre ++ m :: post) ->
  calculateTotalDescendants fuel (id m) (pre ++ m :: List.map blank post)
  = Some (totalDescendants m).
Proof.
  unfold allMembers. intros Hrun.
  apply fillMembers_stores in Hrun as (processed & Hres & _ & Hsplit).
  - simpl in Hres. subst processed. exact (Hsplit pre m post eq_refl).
  - intros k Hk. unfold projectMembers in Hk.
    apply in_map_iff in Hk as (c & <- & _). reflexivity.
Qed.

Lemma totalDescendants_stored_witness :
  exists a b c,
    allMembers 4 chainABC [] = Some ([] ++ a :: [b; c])
    /\ calculateTotalDescendants 4 (id a) ([] ++ a :: List.map blank [b; c])
       = Some (totalDescendants a).
Proof.
  destruct (allMembers 4 chainABC []) as [ms|] eqn:Hrun; [|discriminate].
  assert (Hms : exists a b c, ms = [a; b; c]).
  { vm_compute in Hrun. injection Hrun as <-. do 3 eexists. reflexivity. }
  destruct Hms as (a & b & c & ->).
  exists a, b, c. split; [reflexivity|].
  exact (totalDescendants_stored chainABC [] 4 [] a [b; c] Hrun).
Defined.

Lemma fold_children_lower (g : string -> option Z) (l : list string) :
  (forall c d, In c l -> g c = Some d -> (0 <= d)%Z) ->
  forall a t,
    fold_left
      (fun total c =>
         match total, g c with
         | Some t, Some d => Some (t + d)%Z
         | _, _ => None
         end) l (Some a) = Some t ->
    (a <= t)%Z.
Proof.
  induction l as [|c l IH]; intros Hg a t H; simpl in H.
  - injection H as <-. lia.
  - destruct (g c) as [d|] eqn:E; [|now apply fold_children_None in H].
    apply IH in H; [|intros c' d' Hc'; apply Hg; now right].
    pose proof (Hg c d (or_introl eq_refl) E). lia.
Qed.

Lemma calculateTotalDescendants_lower ms : forall fuel x t,
  calculateTotalDescendants fuel x ms = Some t ->
  match findMember x ms with
  | Some member => (Z.of_nat (length (referrals member)) <= t)%Z
  | None => t = 0%Z
  end.
Proof.
  induction fuel as [|fuel IH]; intros x t H; [discriminate|].
  rewrite calculateTotalDescendants_S in H.
  destruct (findMember x ms) as [m|]; [|now injection H].
  revert H. apply fold_children_lower. intros c d _ Hd.
  apply IH in Hd. destruct (findMember c ms); lia.
Qed.

Lemma calculateTotalDescendants_nonneg ms fuel x t :
  calculateTotalDescendants fuel x ms = Some t -> (0 <= t)%Z.
Proof.
  intros H. apply calculateTotalDescendants_lower in H.
  destruct (findMember x ms); lia.
Qed.

(** The first member with a given id, in a list that has one at a known
    place, is at that place or before it. *)
Lemma findMember_prefix x pre m post :
  id m = x ->
  exists a, findMember x (pre ++ m :: post) = Some a
            /\ In a (pre ++ [m]) /\ id a = x.
Proof.
  intros Hid. unfold findMember.
  destruct (List.find (fun k => String.eqb (id k) x) pre) as [a|] eqn:E.
  - exists a. rewrite (find_app_l _ _ (m :: post) _ E).
    apply find_some in E as [Hin Heq]. apply String.eqb_eq in Heq.
    split; [reflexivity|]. split; [apply in_or_app; now left | exact Heq].
  - exists m. rewrite (find_app_r _ _ _ E). simpl.
    assert (String.eqb (id m) x = true) as -> by (now apply String.eqb_eq).
    split; [reflexivity|]. split; [apply in_or_app; right; now left | exact Hid].
Qed.

Lemma same_id_same_referrals contacts cells fuel ms a m :
  allMembers fuel contacts cells = Some ms ->
  In a ms -> In m ms -> id a = id m -> referrals a = referrals m.
Proof.
  intros Hrun Ha Hm Hid.
  destruct (allMembers_spec _ _ _ _ Hrun) as [_ Hall].
  destruct (Hall a Ha) as [_ ->]. destruct (Hall m Hm) as [_ ->].
  now rewrite Hid.
Qed.

(** The stored descendant count is at least the number of direct
    referrals, and it is 0 exactly for the members without referral. *)
Theorem totalDescendants_direct contacts cells fuel ms m :
  allMembers fuel contacts cells = Some ms ->
  In m ms ->
  (Z.of_nat (length (referrals m)) <= totalDescendants m)%Z
  /\ (totalDescendants m = 0%Z <-> referrals m = []).
Proof.
  intros Hrun Hm.
  destruct (in_split _ _ Hm) as (pre & post & ->).
  pose proof (allMembers_stores _ _ _ _ Hrun _ _ _ eq_refl) as Hstored.
  destruct (findMember_prefix (id m) pre m (List.map blank post) eq_refl)
    as (a & Hfind & Ha & Hid).
  assert (Hrefs : referrals a = referrals m).
  { apply (same_id_same_referrals _ _ _ _ a m Hrun); [|exact Hm|exact Hid].
    apply in_app_or in Ha as [Ha|[<-|[]]]; [|exact Hm].
    apply in_or_app. now left. }
  assert (Hlow : (Z.of_nat (length (referrals m)) <= totalDescendants m)%Z).
  { pose proof (calculateTotalDescendants_lower _ _ _ _ Hstored) as Hl.
    rewrite Hfind, Hrefs in Hl. exact Hl. }
  split; [exact Hlow|]. split.
  - intros Hz. destruct (referrals m); [reflexivity|]. simpl in Hlow. lia.
  - intros Hnil. destruct fuel as [|fuel]; [discriminate|].
    rewrite calculateTotalDescendants_S, Hfind, Hrefs, Hnil in Hstored.
    simpl in Hstored. now injection Hstored.
Qed.

Lemma totalDescendants_direct_witness :
  exists ms m, allMembers 4 chainABC [] = Some ms /\ In m ms
    /\ (Z.of_nat (length (referrals m)) <= totalDescendants m)%Z.
Proof.
  destruct (allMembers 4 chainABC []) as [ms|] eqn:Hrun; [|discriminate].
  destruct ms as [|m ms]; [discriminate|].
  exists (m :: ms), m. split; [reflexivity|]. split; [now left|].
  exact (proj1 (totalDescendants_direct chainABC [] 4 (m :: ms) m Hrun
                  (or_introl eq_refl))).
Defined.

(** ** The stored count against the size of the subtree *)

(** [st] is [ms] with some referral lists not assigned yet. *)
Lemma findMember_behind x : forall st ms,
  Forall2 behind st ms ->
  match findMember x st, findMember x ms with
  | Some a, Some a' => behind a a'
  | None, None => True
  | _, _ => False
  end.
Proof.
  unfold findMember. induction 1 as [|a a' st ms Haa' _ IH]; simpl; [exact I|].
  destruct Haa' as [Hid Hrefs]. rewrite Hid.
  destruct (String.eqb (id a') x); [split; assumption | exact IH].
Qed.

Lemma fold_children_le (g h : string -> option Z) (l : list string) :
  (forall c d d', In c l -> g c = Some d -> h c = Some d' -> (d <= d')%Z) ->
  forall a a' t t', (a <= a')%Z ->
    fold_left
      (fun total c =>
         match total, g c with
         | Some t, Some d => Some (t + d)%Z
         | _, _ => None
         end) l (Some a) = Some t ->
    fold_left
      (fun total c =>
         match total, h c with
         | Some t, Some d => Some (t + d)%Z
         | _, _ => None
         end) l (Some a') = Some t' ->
    (t <= t')%Z.
Proof.
  induction l as [|c l IH]; intros Hgh a a' t t' Hle Hg Hh; simpl in *.
  - injection Hg as <-. injection Hh as <-. exact Hle.
  - destruct (g c) as [d|] eqn:Eg; [|now apply fold_children_None in Hg].
    destruct (h c) as [d'|] eqn:Eh; [|now apply fold_children_None in Hh].
    apply (IH (fun c' d0 d0' Hc' => Hgh c' d0 d0' (or_intror Hc'))
              (a + d)%Z (a' + d')%Z t t'); [|exact Hg|exact Hh].
    pose proof (Hgh c d d' (or_introl eq_refl) Eg Eh). lia.
Qed.

(** Assigning more referral lists never lowers a count. *)
Lemma calculateTotalDescendants_behind st ms :
  Forall2 behind st ms ->
  forall fuel x t t',
    calculateTotalDescendants fuel x st = Some t ->
    calculateTotalDescendants fuel x ms = Some t' ->
    (t <= t')%Z.
Proof.
  intros Hb. induction fuel as [|fuel IH]; intros x t t' Hst Hms; [discriminate|].
  pose proof (calculateTotalDescendants_nonneg _ _ _ _ Hms) as Hnn.
  rewrite calculateTotalDescendants_S in Hst, Hms.
  pose proof (findMember_behind x st ms Hb) as Hf.
  destruct (findMember x st) as [a|], (findMember x ms) as [a'|]; try contradiction.
  - destruct Hf as [_ [Hrefs|Hnil]].
    + rewrite Hrefs in Hst.
      apply (fold_children_le _ _ (referrals a')
               (fun c d d' _ Hd Hd' => IH c d d' Hd Hd')
               _ _ t t' (Z.le_refl _) Hst Hms).
    + rewrite Hnil in Hst. simpl in Hst. injection Hst as <-. exact Hnn.
  - injection Hst as <-. injection Hms as <-. lia.
Qed.

Lemma behind_refl ms : Forall2 behind ms ms.
Proof. induction ms; constructor; [split; auto | assumption]. Qed.

Lemma behind_blank ms : Forall2 behind (List.map blank ms) ms.
Proof. induction ms; constructor; [split; auto | assumption]. Qed.

(** The loop never counts more than the subtree holds: for an acyclic list
    the stored descendant count of every member is at most the size of its
    referral subtree. *)
Theorem totalDescendants_at_most_subtree contacts cells fuel ms m :
  acyclic (contactLinks contacts) ->
  (length contacts < fuel)%nat ->
  allMembers fuel contacts cells = Some ms ->
  In m ms ->
  (totalDescendants m <= subtreeSize fuel (contactLinks contacts) (id m))%Z.
Proof.
  intros Hac Hfuel Hrun Hm.
  pose proof (totalDescendants_after_loop_subtree _ _ _ _ m Hac Hfuel Hrun Hm) as Hafter.
  destruct (in_split _ _ Hm) as (pre & post & ->).
  pose proof (allMembers_stores _ _ _ _ Hrun _ _ _ eq_refl) as Hstored.
  apply (calculateTotalDescendants_behind (pre ++ m :: List.map blank post)
           (pre ++ m :: post)) with (fuel := fuel) (x := id m);
    [|exact Hstored|exact Hafter].
  apply Forall2_app; [apply behind_refl|].
  constructor; [split; auto | apply behind_blank].
Qed.

Lemma totalDescendants_at_most_subtree_witness :
  exists ms m, allMembers 4 chainABC [] = Some ms /\ In m ms
    /\ (totalDescendants m <= subtreeSize 4 (contactLinks chainABC) (id m))%Z.
Proof.
  destruct (allMembers 4 chainABC []) as [ms|] eqn:Hrun; [|discriminate].
  destruct ms as [|m ms]; [discriminate|].
  exists (m :: ms), m. split; [reflexivity|]. split; [now left|].
  apply (totalDescendants_at_most_subtree chainABC [] 4 (m :: ms) m);
    [apply (rankedb_sound rankABC); reflexivity | simpl; lia | exact Hrun | now left].
Defined.

(** The size of a subtree does not depend on the budget once the budget is
    above the number of contacts. *)
Lemma subtreeSize_stable contacts fuel fuel' x :
  acyclic (contactLinks contacts) ->
  (length contacts < fuel)%nat -> (fuel <= fuel')%nat ->
  In x (List.map c_id contacts) ->
  subtreeSize fuel (contactLinks contacts) x
  = subtreeSize fuel' (contactLinks contacts) x.
Proof.
  intros Hac Hfuel Hle Hx.
  destruct (allMembers_total contacts [] fuel Hac Hfuel) as [ms Hrun].
  pose proof (allMembers_mono _ _ _ fuel' _ Hrun Hle) as Hrun'.
  rewrite <- (allMembers_ids _ _ _ _ Hrun) in Hx.
  apply in_map_iff in Hx as (m & <- & Hm).
  pose proof (totalDescendants_after_loop_subtree _ _ _ _ m Hac Hfuel Hrun Hm) as H1.
  assert (Hfuel' : (length contacts < fuel')%nat) by lia.
  pose proof (totalDescendants_after_loop_subtree _ _ _ _ m Hac Hfuel' Hrun' Hm) as H2.
  rewrite (calculateTotalDescendants_mono _ _ fuel' _ _ H1 Hle) in H2.
  now injection H2.
Qed.

(** Two lists that agree on the lookups of a set of ids closed under
    referrals give the same count for every id of the set. *)
Lemma calculateTotalDescendants_closed (D : list string) st ms :
  (forall y, In y D ->
     exists a a', findMember y st = Some a /\ findMember y ms = Some a'
                  /\ referrals a = referrals a' /\ incl (referrals a') D) ->
  forall fuel x, In x D ->
    calculateTotalDescendants fuel x st = calculateTotalDescendants fuel x ms.
Proof.
  intros Hclosed. induction fuel as [|fuel IH]; intros x Hx; [reflexivity|].
  rewrite !calculateTotalDescendants_S.
  destruct (Hclosed x Hx) as (a & a' & -> & -> & Hrefs & Hincl).
  rewrite Hrefs. apply fold_children_ext_in.
  intros c Hc. apply IH. now apply Hincl.
Qed.

(** When every referral comes before its referrer in the result, the loop
    stores the size of the whole referral subtree in every member. *)
Theorem totalDescendants_children_first contacts cells fuel ms m :
  allMembers fuel contacts cells = Some ms ->
  childrenFirst ms ->
  In m ms ->
  totalDescendants m = subtreeSize fuel (contactLinks contacts) (id m).
Proof.
  intros Hrun Hcf Hm.
  destruct (allMembers_spec _ _ _ _ Hrun) as [Hls Hall].
  destruct (in_split _ _ Hm) as (pre & post & ->).
  pose proof (allMembers_stores _ _ _ _ Hrun _ _ _ eq_refl) as Hstored.
  rewrite (calculateTotalDescendants_closed (List.map id (pre ++ [m]))
             (pre ++ m :: List.map blank post) (pre ++ m :: post)) in Hstored.
  - rewrite <- Hls.
    apply (calculateTotalDescendants_subtree (pre ++ m :: post)) with (fuel := fuel);
      [| |exact Hstored].
    + intros k Hk. now destruct (Hall k Hk).
    + intros Hnone. apply findMember_None in Hnone. apply Hnone. now apply in_map.
  - intros y Hy. apply in_map_iff in Hy as (k & Hky & Hk).
    unfold findMember.
    destruct (List.find (fun k0 => String.eqb (id k0) y) (pre ++ [m])) as [a|] eqn:E.
    + exists a, a.
      rewrite <- (app_cons_assoc pre m (List.map blank post)),
        <- (app_cons_assoc pre m post).
      rewrite (find_app_l _ _ (List.map blank post) _ E), (find_app_l _ _ post _ E).
      split; [reflexivity|]. split; [reflexivity|]. split; [reflexivity|].
      apply find_some in E as [Ha _].
      destruct (in_split _ _ Ha) as (pre' & post' & Hsplit).
      intros c Hc. rewrite Hsplit, List.map_app. apply in_or_app. left.
      apply (Hcf pre' a (post' ++ post)); [|exact Hc].
      rewrite <- app_cons_assoc, Hsplit, <- List.app_assoc. reflexivity.
    + exfalso. pose proof (find_none _ _ E k Hk) as Hf. simpl in Hf.
      rewrite Hky, String.eqb_refl in Hf. discriminate.
  - apply in_map, in_or_app. right. now left.
Qed.

Lemma totalDescendants_children_first_witness :
  exists ms, allMembers 4 chainCBA [] = Some ms /\ childrenFirst ms
    /\ forall m, In m ms ->
         totalDescendants m = subtreeSize 4 (contactLinks chainCBA) (id m).
Proof.
  destruct (allMembers 4 chainCBA []) as [ms|] eqn:Hrun; [|discriminate].
  exists ms. split; [reflexivity|].
  assert (Hcf : childrenFirst ms).
  { vm_compute in Hrun. injection Hrun as <-.
    intros pre m post Heq c Hc.
    destruct pre as [|p1 pre]; simpl in Heq; injection Heq as <- Heq.
    { destruct Hc. }
    destruct pre as [|p2 pre]; simpl in Heq; injection Heq as <- Heq.
    { destruct Hc as [<-|[]]. now left. }
    destruct pre as [|p3 pre]; simpl in Heq; injection Heq as <- Heq.
    { destruct Hc as [<-|[]]. right. now left. }
    destruct pre; discriminate. }
  split; [exact Hcf|].
  intros m Hm. exact (totalDescendants_children_first chainCBA [] 4 ms m Hrun Hcf Hm).
Defined.

(** ** Level metrics *)

Lemma countMember_lookup metrics member l :
  countMember metrics member !! l
  = if bool_decide (level member = l)
    then Some (addTally
                 (default {| metric_count := 0; metric_baptized := 0;
                             metric_withEncounter := 0 |} (metrics !! l))
                 l [member])
    else metrics !! l.
Proof.
  unfold countMember. case_bool_decide as Hl.
  - subst l. rewrite lookup_alter_eq.
    unfold addTally, countIf. simpl. rewrite Z.eqb_refl. simpl.
    destruct (metrics !! level member) as [e|] eqn:E.
    + rewrite E. simpl. f_equal.
      destruct (baptized member), (encounterWithGod member); simpl;
        f_equal; lia.
    + rewrite lookup_insert_eq. simpl.
      destruct (baptized member), (encounterWithGod member); reflexivity.
  - rewrite lookup_alter_ne by exact Hl.
    destruct (metrics !! level member); [reflexivity|].
    now rewrite lookup_insert_ne.
Qed.

Lemma countIf_cons p m ms :
  countIf p (m :: ms) = ((if p m then 1 else 0) + countIf p ms)%Z.
Proof.
  unfold countIf. simpl. destruct (p m); simpl; lia.
Qed.

Lemma addTally_cons e l m ms :
  addTally (addTally e l [m]) l ms = addTally e l (m :: ms).
Proof.
  unfold addTally. simpl. rewrite !(countIf_cons _ m ms), !(countIf_cons _ m []).
  unfold countIf. simpl. f_equal; lia.
Qed.

Lemma addTally_skip e l m ms :
  (level m =? l)%Z = false -> addTally e l (m :: ms) = addTally e l ms.
Proof.
  intros Hl. unfold addTally. rewrite !(countIf_cons _ m ms), Hl. simpl.
  reflexivity.
Qed.

Lemma levelMetrics_fold ms l : forall metrics,
  fold_left countMember ms metrics !! l
  = match metrics !! l with
    | Some e => Some (addTally e l ms)
    | None =>
      if existsb (fun m => (level m =? l)%Z) ms
      then Some (addTally {| metric_count := 0; metric_baptized := 0;
                             metric_withEncounter := 0 |} l ms)
      else None
    end.
Proof.
  induction ms as [|m ms IH]; intros metrics; simpl.
  - destruct (metrics !! l) as [e|]; [|reflexivity].
    unfold addTally, countIf. simpl. destruct e. simpl. f_equal. f_equal; lia.
  - rewrite IH, countMember_lookup. case_bool_decide as Hl.
    + rewrite addTally_cons. apply Z.eqb_eq in Hl. rewrite Hl. simpl.
      destruct (metrics !! l); reflexivity.
    + apply Z.eqb_neq in Hl. rewrite Hl. simpl.
      destruct (metrics !! l) as [e|];
        [|destruct (existsb _ ms)]; rewrite ?(addTally_skip _ l m ms Hl); reflexivity.
Qed.

Lemma levelMetrics_lookup (connectedMembers : list MemberNode) (l : Z) :
  levelMetrics connectedMembers !! l
  = if existsb (fun m => (level m =? l)%Z) connectedMembers
    then Some (addTally {| metric_count := 0; metric_baptized := 0;
                           metric_withEncounter := 0 |} l connectedMembers)
    else None.
Proof. unfold levelMetrics. now rewrite levelMetrics_fold, lookup_empty. Qed.

(** The metrics hold an entry exactly for the levels that have a member,
    and the entry of a level counts the members of that level, the
    baptized ones among them and the ones with an encounter. *)
Theorem levelMetrics_counts (connectedMembers : list MemberNode) (l : Z) :
  match levelMetrics connectedMembers !! l with
  | Some e =>
    metric_count e = countIf (fun m => (level m =? l)%Z) connectedMembers
    /\ metric_baptized e
       = countIf (fun m => (level m =? l)%Z && baptized m) connectedMembers
    /\ metric_withEncounter e
       = countIf (fun m => (level m =? l)%Z && encounterWithGod m) connectedMembers
    /\ (0 < metric_count e)%Z
  | None => forall m, In m connectedMembers -> level m <> l
  end.
Proof.
  rewrite levelMetrics_lookup.
  destruct (existsb _ connectedMembers) eqn:E.
  - unfold addTally. simpl. repeat split.
    apply existsb_exists in E as (m & Hm & Hl).
    unfold countIf.
    assert (In m (List.filter (fun m => (level m =? l)%Z) connectedMembers))
      by (apply filter_In; auto).
    destruct (List.filter _ connectedMembers); [contradiction | simpl; lia].
  - intros m Hm Hl.
    assert (existsb (fun m => (level m =? l)%Z) connectedMembers = true); [|congruence].
    apply existsb_exists. exists m. split; [exact Hm | now apply Z.eqb_eq].
Qed.

(** In every entry the baptized and the members with an encounter are at
    most as many as the members. *)
Theorem levelMetrics_bounded (connectedMembers : list MemberNode) (l : Z) e :
  levelMetrics connectedMembers !! l = Some e ->
  (0 <= metric_baptized e <= metric_count e)%Z
  /\ (0 <= metric_withEncounter e <= metric_count e)%Z.
Proof.
  intros He. rewrite levelMetrics_lookup in He.
  destruct (existsb _ connectedMembers); [|discriminate].
  injection He as <-. unfold addTally, countIf. simpl.
  assert (Hle : forall q, (length (List.filter
                 (fun m => (level m =? l)%Z && q m) connectedMembers)
               <= length (List.filter (fun m => (level m =? l)%Z) connectedMembers))%nat).
  { intros q. induction connectedMembers as [|m ms IH]; [reflexivity|].
    simpl. destruct (level m =? l)%Z; simpl; [|exact IH].
    destruct (q m); simpl; lia. }
  pose proof (Hle baptized). pose proof (Hle encounterWithGod). lia.
Qed.

Lemma levelMetrics_bounded_witness :
  exists e, levelMetrics membersABC !! 1%Z = Some e
    /\ (0 <= metric_baptized e <= metric_count e)%Z.
Proof.
  destruct (levelMetrics membersABC !! 1%Z) as [e|] eqn:He.
  - exists e. split; [reflexivity|].
    exact (proj1 (levelMetrics_bounded membersABC 1%Z e He)).
  - exfalso. rewrite levelMetrics_lookup in He. discriminate.
Defined.

(** ** Toggles *)

(** Toggling a level twice gives the visible-level set back, and toggling
    a level leaves every other level as it was. *)
Theorem toggleLevel_involutive (l : Z) (visibleLevels : gset Z) :
  toggleLevel l (toggleLevel l visibleLevels) = visibleLevels
  /\ (l ∈ toggleLevel l visibleLevels <-> l ∉ visibleLevels)
  /\ forall k, k <> l -> (k ∈ toggleLevel l visibleLevels <-> k ∈ visibleLevels).
Proof.
  unfold toggleLevel. split; [|split].
  - apply set_eq. intros k.
    destruct (decide (l ∈ visibleLevels)) as [Hin|Hout].
    + rewrite (bool_decide_eq_true_2 _ Hin).
      rewrite bool_decide_eq_false_2
        by (intros H0; apply elem_of_difference in H0 as [_ H0]; apply H0;
            now apply elem_of_singleton).
      rewrite elem_of_union, elem_of_difference, elem_of_singleton.
      destruct (decide (k = l)) as [->|]; tauto.
    + rewrite (bool_decide_eq_false_2 _ Hout).
      rewrite bool_decide_eq_true_2
        by (apply elem_of_union; right; now apply elem_of_singleton).
      rewrite elem_of_difference, elem_of_union, elem_of_singleton.
      destruct (decide (k = l)) as [->|]; tauto.
  - case_bool_decide as Hin.
    + rewrite elem_of_difference, elem_of_singleton. tauto.
    + rewrite elem_of_union, elem_of_singleton. tauto.
  - intros k Hk. case_bool_decide as Hin.
    + rewrite elem_of_difference, elem_of_singleton. tauto.
    + rewrite elem_of_union, elem_of_singleton. tauto.
Qed.

(** Toggling the expansion of a node twice gives the expanded set back. *)
Theorem toggleNodeExpansion_involutive (connectedMembers : list MemberNode)
    (nodeId : string) (expandedNodes : gset string) :
  toggleNodeExpansion connectedMembers nodeId
    (toggleNodeExpansion connectedMembers nodeId expandedNodes)
  = expandedNodes.
Proof.
  unfold toggleNodeExpansion.
  destruct (findMember nodeId connectedMembers) as [member|]; [|reflexivity].
  destruct (0 <? length (referrals member))%nat; [|reflexivity].
  apply set_eq. intros k.
  destruct (decide (nodeId ∈ expandedNodes)) as [Hin|Hout].
  - rewrite (bool_decide_eq_true_2 _ Hin).
    rewrite bool_decide_eq_false_2
        by (intros H0; apply elem_of_difference in H0 as [_ H0]; apply H0;
            now apply elem_of_singleton).
    rewrite elem_of_union, elem_of_difference, elem_of_singleton.
    destruct (decide (k = nodeId)) as [->|]; tauto.
  - rewrite (bool_decide_eq_false_2 _ Hout).
    rewrite bool_decide_eq_true_2
        by (apply elem_of_union; right; now apply elem_of_singleton).
    rewrite elem_of_difference, elem_of_union, elem_of_singleton.
    destruct (decide (k = nodeId)) as [->|]; tauto.
Qed.

(** ** Focusing a level *)

Lemma addWithReferrer_elem (acc : gset string) member x :
  x ∈ addWithReferrer acc member <->
  x ∈ acc \/ x = id member \/ (referredBy member = Some x /\ x <> "").
Proof.
  unfold addWithReferrer. destruct (referredBy member) as [r|] eqn:Hr.
  - destruct (truthy (Some r)) eqn:Ht.
    + apply truthy_Some_inv in Ht as (s & [= <-] & Hs).
      rewrite !elem_of_union, !elem_of_singleton. split.
      * intros [[H|H]|H]; auto. subst x. auto.
      * intros [H|[H|[[= ->] _]]]; auto.
    + rewrite elem_of_union, elem_of_singleton. split.
      * intros [H|H]; auto.
      * intros [H|[H|[[= ->] Hne]]]; auto.
        simpl in Ht. apply negb_false_iff, String.eqb_eq in Ht. contradiction.
  - rewrite elem_of_union, elem_of_singleton. split.
    + intros [H|H]; auto.
    + intros [H|[H|[H _]]]; auto. discriminate.
Qed.

Lemma addWithReferrer_fold members x : forall acc : gset string,
  x ∈ fold_left addWithReferrer members acc <->
  x ∈ acc \/ exists m, In m members
                       /\ (x = id m \/ (referredBy m = Some x /\ x <> "")).
Proof.
  induction members as [|m ms IH]; intros acc; simpl.
  - split; [auto | intros [H|(m & [] & _)]; exact H].
  - rewrite IH, addWithReferrer_elem. split.
    + intros [[H|H]|(k & Hk & H)]; eauto 6.
    + intros [H|(k & [<-|Hk] & H)]; eauto 6.
Qed.

(** Focusing a level and then clearing the focus leaves no focus, keeps
    everything that was expanded, keeps every member that was visible
    before, and shows every connected member of that level when the level
    is one of the visible levels. *)
Theorem focus_then_clear (visibleLevels : gset Z) (expandedNodes : gset string)
    (f : Z) (connectedMembers : list MemberNode) :
  let focused := focusOnLevel connectedMembers (Some f) expandedNodes in
  let cleared := focusOnLevel connectedMembers None (snd focused) in
  fst focused = Some f
  /\ fst cleared = None
  /\ expandedNodes ⊆ snd cleared
  /\ (forall m, In m (fst (network visibleLevels expandedNodes None connectedMembers)) ->
        In m (fst (network visibleLevels (snd cleared) (fst cleared) connectedMembers)))
  /\ (f ∈ visibleLevels ->
      forall m, In m connectedMembers -> level m = f ->
        In m (fst (network visibleLevels (snd cleared) (fst cleared) connectedMembers))).
Proof.
  intros focused cleared. unfold cleared, focused, focusOnLevel. simpl.
  set (E' := fold_left addWithReferrer _ expandedNodes).
  assert (Hsub : expandedNodes ⊆ E').
  { intros x Hx. apply addWithReferrer_fold. now left. }
  split; [reflexivity|]. split; [reflexivity|]. split; [exact Hsub|]. split.
  - intros m. rewrite !network_visible. unfold visibleMembersOf. rewrite !filter_In.
    intros [Hm Hv]. split; [exact Hm|].
    exact (isVisible_mono visibleLevels expandedNodes E' None m Hsub Hv).
  - intros Hf m Hm Hl. rewrite network_visible. unfold visibleMembersOf.
    apply filter_In. split; [exact Hm|].
    apply isVisible_unfocused. split; [now rewrite Hl|].
    right; left. apply addWithReferrer_fold. right. exists m.
    split; [|now left]. apply filter_In. split; [exact Hm | now apply Z.eqb_eq].
Qed.

(** ** Expanding and collapsing everything *)

Lemma elem_of_ids (members : list MemberNode) x :
  x ∈ (list_to_set (List.map id members) : gset string) <->
  exists k, In k members /\ id k = x.
Proof.
  rewrite elem_of_list_to_set, list_elem_of_In, in_map_iff.
  split; intros (k & H1 & H2); eauto.
Qed.

(** With every connected member expanded and no focus, the visible members
    are the connected members whose level is one of the visible levels. *)
Theorem expandAll_shows_levels (visibleLevels : gset Z)
    (connectedMembers : list MemberNode) (m : MemberNode) :
  In m (fst (network visibleLevels (expandAll connectedMembers) None connectedMembers))
  <-> In m connectedMembers /\ level m ∈ visibleLevels.
Proof.
  rewrite network_visible. unfold visibleMembersOf.
  rewrite filter_In, isVisible_unfocused. split.
  - intros [Hm [Hl _]]. auto.
  - intros [Hm Hl]. split; [exact Hm|]. split; [exact Hl|].
    right; left. apply elem_of_ids. eauto.
Qed.

Lemma root_level_zero contacts cells fuel ms k :
  uniqueIds (contactLinks contacts) ->
  allMembers fuel contacts cells = Some ms ->
  In k ms -> isRoot k = true -> level k = 0%Z.
Proof.
  intros Huniq Hrun Hk Hroot.
  pose proof (level_step _ _ _ _ k Huniq Hrun Hk) as Hstep.
  unfold isRoot in Hroot. apply negb_true_iff in Hroot.
  destruct (referredBy k) as [r|]; [|exact Hstep].
  destruct Hstep as [Hne _]. simpl in Hroot.
  apply negb_false_iff, String.eqb_eq in Hroot. contradiction.
Qed.

Lemma connectedOf_In ms k : In k (connectedOf ms) -> In k ms.
Proof. unfold connectedOf. intros H. now apply filter_In in H as [H _]. Qed.

(** After collapsing, with no focus, nothing deeper than level 1 is
    shown: for members derived from contacts with pairwise distinct ids,
    every visible member has level 0 or 1. *)
Theorem collapseAll_shows_two_levels contacts cells fuel ms
    (visibleLevels : gset Z) (m : MemberNode) :
  uniqueIds (contactLinks contacts) ->
  allMembers fuel contacts cells = Some ms ->
  In m (fst (network visibleLevels (collapseAll (connectedOf ms)) None (connectedOf ms))) ->
  level m = 0%Z \/ level m = 1%Z.
Proof.
  intros Huniq Hrun. rewrite network_visible. unfold visibleMembersOf.
  rewrite filter_In, isVisible_unfocused.
  intros (Hm & _ & Hshow). apply connectedOf_In in Hm.
  assert (Hnd : List.NoDup (List.map id ms)).
  { rewrite (allMembers_ids _ _ _ _ Hrun). unfold uniqueIds, contactLinks in Huniq.
    now rewrite List.map_map in Huniq. }
  assert (Hroots : forall x, x ∈ collapseAll (connectedOf ms) ->
            exists k, In k ms /\ id k = x /\ level k = 0%Z).
  { intros x Hx. unfold collapseAll in Hx. apply elem_of_ids in Hx as (k & Hk & Hid).
    apply filter_In in Hk as [Hk Hroot]. apply connectedOf_In in Hk.
    exists k. split; [exact Hk|]. split; [exact Hid|].
    eapply root_level_zero; eassumption. }
  destruct Hshow as [Hz|[Hid|(r & Hr & Hne & Hin)]]; [now left| |].
  - left. destruct (Hroots _ Hid) as (k & Hk & Hkid & Hlevel).
    assert (Hkm : Some k = Some m).
    { rewrite <- (findMember_unique ms k Hnd Hk), <- (findMember_unique ms m Hnd Hm).
      now rewrite Hkid. }
    injection Hkm as <-. exact Hlevel.
  - right. destruct (Hroots _ Hin) as (k & Hk & Hkid & Hlevel).
    pose proof (level_step _ _ _ _ m Huniq Hrun Hm) as Hstep.
    rewrite Hr in Hstep. destruct Hstep as (_ & fuel' & l & -> & Hl & Hlm).
    destruct (allMembers_spec _ _ _ _ Hrun) as [_ Hall].
    destruct (Hall k Hk) as [Hlk _]. rewrite Hkid, Hlevel in Hlk.
    rewrite (calculateMemberLevel_mono ms fuel' (S fuel') r l Hl) in Hlk by lia.
    injection Hlk as ->. exact Hlm.
Qed.

Lemma collapseAll_shows_two_levels_witness :
  exists ms m,
    allMembers 4 chainABC [] = Some ms
    /\ In m (fst (network initialVisibleLevels (collapseAll (connectedOf ms)) None
                    (connectedOf ms)))
    /\ (level m = 0%Z \/ level m = 1%Z).
Proof.
  destruct (allMembers 4 chainABC []) as [ms|] eqn:Hrun; [|discriminate].
  assert (Hms : exists a rest, ms = a :: rest /\ level a = 0%Z /\ isConnected a = true).
  { vm_compute in Hrun. injection Hrun as <-. do 2 eexists. repeat split. }
  destruct Hms as (a & rest & -> & Hlevel & Hconn).
  exists (a :: rest), a. split; [reflexivity|].
  assert (Hv : In a (fst (network initialVisibleLevels
                            (collapseAll (connectedOf (a :: rest))) None
                            (connectedOf (a :: rest))))).
  { rewrite network_visible. unfold visibleMembersOf. apply filter_In. split.
    - unfold connectedOf. apply filter_In. split; [now left | exact Hconn].
    - apply isVisible_unfocused. rewrite Hlevel. split; [|now left].
      unfold initialVisibleLevels. rewrite !elem_of_union, !elem_of_singleton. tauto. }
  split; [exact Hv|].
  apply (collapseAll_shows_two_levels chainABC [] 4 (a :: rest) initialVisibleLevels a);
    [apply uniqueb_sound; reflexivity | exact Hrun | exact Hv].
Defined.

Lemma firstn_In {A} (n : nat) : forall (l : list A) x, In x (firstn n l) -> In x l.
Proof.
  induction n as [|n IH]; intros [|a l] x H; simpl in *; try contradiction.
  destruct H as [H|H]; [now left | right; now apply IH].
Qed.

Lemma size_ids_le (l : list string) : (size (list_to_set l : gset string) <= length l)%nat.
Proof.
  induction l as [|x l IH].
  { change (list_to_set [] : gset string) with (∅ : gset string).
    rewrite size_empty. reflexivity. }
  change (list_to_set (x :: l) : gset string)
    with ({[x]} ∪ (list_to_set l : gset string)).
  rewrite size_union_alt, size_singleton. cbn [length].
  pose proof (subseteq_size (list_to_set l ∖ {[x]}) (list_to_set l : gset string)) as H.
  assert ((list_to_set l : gset string) ∖ {[x]} ⊆ list_to_set l)
    by (intros y Hy; now apply elem_of_difference in Hy as [Hy _]).
  specialize (H H0). lia.
Qed.

(** When the connected members change, at most three ids are expanded,
    each the id of a connected member without referrer; with no connected
    member the expanded set is left as it was. *)
Theorem initialExpansion_roots (connectedMembers : list MemberNode)
    (prev : gset string) :
  (connectedMembers = [] -> initialExpansion connectedMembers prev = prev)
  /\ (connectedMembers <> [] ->
      (size (initialExpansion connectedMembers prev) <= 3)%nat
      /\ forall x, x ∈ initialExpansion connectedMembers prev ->
           exists k, In k connectedMembers /\ id k = x /\ isRoot k = true).
Proof.
  unfold initialExpansion. split.
  - intros ->. reflexivity.
  - intros Hne. destruct connectedMembers as [|c cs]; [now contradiction Hne|].
    change (0 <? length (c :: cs))%nat with true. cbv iota.
    set (roots := List.filter isRoot (c :: cs)). split.
    + etransitivity; [apply size_ids_le|].
      rewrite List.length_map, List.length_firstn. lia.
    + intros x Hx. apply elem_of_ids in Hx as (k & Hk & Hid).
      apply firstn_In in Hk. apply filter_In in Hk as [Hk Hroot]. eauto.
Qed.

Lemma initialExpansion_roots_witness :
  (size (initialExpansion membersABC ∅) <= 3)%nat
  /\ "A" ∈ initialExpansion membersABC ∅.
Proof.
  destruct (initialExpansion_roots membersABC ∅) as [_ H].
  destruct H as [Hsize _]; [discriminate|].
  split; [exact Hsize|].
  unfold initialExpansion. simpl. apply elem_of_union. left.
  now apply elem_of_singleton.
Defined.

(** ** The edges *)

(** A visible member whose referrer is the id of a visible member gets its
    edge, named after the two ids; and there are no more edges than visible
    members. *)
Theorem edges_complete (focusedLevel : option Z) (visibleMembers : list MemberNode)
    (t : MemberNode) (r : string) :
  In t visibleMembers ->
  referredBy t = Some r -> r <> "" ->
  In r (List.map id visibleMembers) ->
  (exists e, In e (edgesOf focusedLevel visibleMembers)
             /\ source e = r /\ target e = id t
             /\ edge_id e = (r ++ "-" ++ id t)%string)
  /\ (length (edgesOf focusedLevel visibleMembers) <= length visibleMembers)%nat.
Proof.
  intros Ht Hr Hne Hin. split.
  - unfold edgesOf. eexists. split.
    + apply in_flat_map. exists t. split; [exact Ht|].
      unfold edgeOf. rewrite Hr. simpl.
      apply String.eqb_neq in Hne. rewrite Hne. simpl.
      destruct (findMember r visibleMembers) eqn:Hf.
      * left. reflexivity.
      * exfalso. now apply findMember_None in Hf.
    + simpl. auto.
  - unfold edgesOf. clear Ht Hin. generalize visibleMembers at 1 as seen.
    induction visibleMembers as [|m ms IH]; intros seen; simpl; [lia|].
    rewrite List.length_app. specialize (IH seen).
    assert ((length (edgeOf focusedLevel seen m) <= 1)%nat); [|lia].
    unfold edgeOf. destruct (referredBy m); [|simpl; lia].
    destruct (_ && _); simpl; lia.
Qed.

Lemma edges_complete_witness :
  exists e, In e (edgesOf None membersABC)
            /\ source e = "A" /\ target e = "B" /\ edge_id e = "A-B".
Proof.
  destruct (edges_complete None membersABC memberB "A") as [H _];
    [right; now left | reflexivity | discriminate | now left | exact H].
Defined.

(** With a focused level every edge is drawn at full opacity, and for
    members derived from contacts with pairwise distinct ids there is no
    edge at all: a member and its referrer are never on the same level. *)
Theorem edges_focused contacts cells fuel ms (visibleLevels : gset Z)
    (expandedNodes : gset string) (f : Z) :
  uniqueIds (contactLinks contacts) ->
  allMembers fuel contacts cells = Some ms ->
  (forall (members : list MemberNode) e,
     In e (snd (network visibleLevels expandedNodes (Some f) members)) ->
     opacity e = Full)
  /\ snd (network visibleLevels expandedNodes (Some f) (connectedOf ms)) = [].
Proof.
  intros Huniq Hrun. split.
  - intros members e He. rewrite network_edges in He.
    unfold edgesOf in He. apply in_flat_map in He as (t & Ht & He).
    unfold visibleMembersOf in Ht. apply filter_In in Ht as [_ Hv].
    apply isVisible_focused in Hv. unfold edgeOf in He.
    destruct (referredBy t); [|destruct He].
    destruct (_ && _); [|destruct He].
    destruct He as [<-|[]]. simpl. apply Z.eqb_eq in Hv. now rewrite Hv.
  - destruct (snd (network _ _ _ _)) as [|e es] eqn:He; [reflexivity|].
    exfalso. assert (Hin : In e (e :: es)) by now left.
    rewrite <- He, network_edges in Hin.
    apply edgesOf_endpoints in Hin as (s & t & Hs & Ht & Hsid & _ & Href).
    unfold visibleMembersOf in Hs, Ht.
    apply filter_In in Hs as [Hs Hsv]. apply filter_In in Ht as [Ht Htv].
    apply isVisible_focused in Hsv, Htv.
    apply connectedOf_In in Hs, Ht.
    pose proof (level_step _ _ _ _ t Huniq Hrun Ht) as Hstep.
    rewrite Href in Hstep. destruct Hstep as (_ & fuel' & l & -> & Hl & Hlt).
    destruct (allMembers_spec _ _ _ _ Hrun) as [_ Hall].
    destruct (Hall s Hs) as [Hls _]. rewrite Hsid in Hls.
    rewrite (calculateMemberLevel_mono ms fuel' (S fuel') _ l Hl) in Hls by lia.
    injection Hls as ->. lia.
Qed.

Lemma edges_focused_witness :
  exists ms, allMembers 4 chainABC [] = Some ms
    /\ snd (network initialVisibleLevels ∅ (Some 1%Z) (connectedOf ms)) = [].
Proof.
  destruct (allMembers 4 chainABC []) as [ms|] eqn:Hrun; [|discriminate].
  exists ms. split; [reflexivity|].
  apply (edges_focused chainABC [] 4 ms initialVisibleLevels ∅ 1%Z);
    [apply uniqueb_sound; reflexivity | exact Hrun].
Defined.

(** ** Layout *)

Lemma NoDup_ids_filter (p : MemberNode -> bool) (l : list MemberNode) :
  List.NoDup (List.map id l) -> List.NoDup (List.map id (List.filter p l)).
Proof.
  induction l as [|x l IH]; intros Hnd; simpl; [constructor|].
  inversion Hnd as [|? ? Hx Hnd']; subst.
  destruct (p x); simpl; [|now apply IH].
  constructor; [|now apply IH].
  intros Hin. apply Hx. apply in_map_iff in Hin as (k & Hk & Hin).
  apply filter_In in Hin as [Hin _]. rewrite <- Hk. now apply in_map.
Qed.

(** With distinct ids, the index found for a member of the list is its
    position. *)
Lemma findIndex_position (l : list MemberNode) (a : MemberNode) :
  List.NoDup (List.map id l) -> In a l ->
  exists i, findIndex (fun s => String.eqb (id s) (id a)) l = Z.of_nat i
            /\ nth_error l i = Some a.
Proof.
  induction l as [|x l IH]; intros Hnd Ha; [destruct Ha|].
  inversion Hnd as [|? ? Hx Hnd']; subst. simpl.
  destruct (String.eqb (id x) (id a)) eqn:E.
  - exists 0%nat. split; [reflexivity|]. simpl.
    destruct Ha as [->|Ha]; [reflexivity|].
    exfalso. apply Hx. apply String.eqb_eq in E. rewrite E. now apply in_map.
  - destruct Ha as [->|Ha]; [now rewrite String.eqb_refl in E|].
    destruct (IH Hnd' Ha) as (i & Hi & Hnth). exists (S i).
    rewrite Hi. split; [|exact Hnth].
    destruct (Z.of_nat i <? 0)%Z eqn:Hneg; [apply Z.ltb_lt in Hneg; lia | lia].
Qed.

(** Two different members with the same referrer and the same level, in a
    list with pairwise distinct ids, are placed on the same row and at
    least one sibling spacing (200) apart. *)
Theorem siblings_apart (allMembers : list MemberNode) (a b : MemberNode) :
  List.NoDup (List.map id allMembers) ->
  In a allMembers -> In b allMembers -> a <> b ->
  referredBy a = referredBy b -> level a = level b ->
  let pa := calculateCompactPosition a allMembers in
  let pb := calculateCompactPosition b allMembers in
  (snd pa == snd pb)%Q
  /\ ((200 <= fst pa - fst pb)%Q \/ (200 <= fst pb - fst pa)%Q).
Proof.
  intros Hnd Ha Hb Hab Hr Hl pa pb. unfold pa, pb, calculateCompactPosition.
  cbv zeta. simpl fst. simpl snd.
  assert (Hsib : siblingsOf a allMembers = siblingsOf b allMembers).
  { unfold siblingsOf. now rewrite Hr, Hl. }
  rewrite Hsib, Hl. split; [reflexivity|].
  assert (Hself : forall k, sameReferrer (referredBy k) (referredBy k) = true).
  { intros k. destruct (referredBy k); simpl; [apply String.eqb_refl | reflexivity]. }
  assert (Hina : In a (siblingsOf b allMembers)).
  { unfold siblingsOf. apply filter_In. split; [exact Ha|].
    now rewrite Hr, Hl, Hself, Z.eqb_refl. }
  assert (Hinb : In b (siblingsOf b allMembers)).
  { unfold siblingsOf. apply filter_In. split; [exact Hb|].
    now rewrite Hself, Z.eqb_refl. }
  assert (Hnd' : List.NoDup (List.map id (siblingsOf b allMembers))).
  { unfold siblingsOf. now apply NoDup_ids_filter. }
  destruct (findIndex_position _ a Hnd' Hina) as (i & -> & Hi).
  destruct (findIndex_position _ b Hnd' Hinb) as (j & -> & Hj).
  set (c := inject_Z (Z.max 1 (Z.of_nat (length (siblingsOf b allMembers))) - 1)).
  set (d := inject_Z (level b)).
  assert (Hij : i <> j) by (intros ->; congruence).
  destruct (Nat.lt_ge_cases i j) as [Hlt|Hge].
  - right.
    assert (H1 : (inject_Z (Z.of_nat i) + 1 <= inject_Z (Z.of_nat j))%Q).
    { change 1%Q with (inject_Z 1). rewrite <- inject_Z_plus, <- Zle_Qle. lia. }
    lra.
  - left.
    assert (H1 : (inject_Z (Z.of_nat j) + 1 <= inject_Z (Z.of_nat i))%Q).
    { change 1%Q with (inject_Z 1). rewrite <- inject_Z_plus, <- Zle_Qle. lia. }
    lra.
Qed.

Lemma siblings_apart_witness :
  (200 <= fst (calculateCompactPosition memberD [memberA; memberD])
          - fst (calculateCompactPosition memberA [memberA; memberD]))%Q.
Proof.
  destruct (siblings_apart [memberA; memberD] memberA memberD) as [_ [H|H]];
    [apply uniqueb_sound; reflexivity | now left | right; now left
     | discriminate | reflexivity | reflexivity | | exact H].
  exfalso. revert H. vm_compute. intros H. now apply H.
Defined.

End GenealogyFacts.

Module EditContactDialogFacts.
Import EditContactDialog.

Section Handler.
Variable Store : Type.
Variable updateContact : string -> UpdateData -> Store -> Store * bool.

Lemma isEmpty_true s : isEmpty s = true <-> s = "".
Proof. apply String.eqb_eq. Qed.

Lemma isEmpty_false s : isEmpty s = false <-> s <> "".
Proof. apply String.eqb_neq. Qed.

(** C8.  When the name, the whatsapp number or the neighborhood of the
    form is empty, saving adds the validation notification, of the
    destructive variant, and nothing else: no update is sent, the
    contacts kept by the hook are as before, and so are the saving flag,
    the dialog and the callback count. *)
Theorem save_rejects_missing_fields (hasCallback : bool) (form : Form)
    (contact : Contact) (w : World Store) :
  name form = "" \/ whatsapp form = "" \/ neighborhood form = "" ->
  let w' := handleSave updateContact hasCallback form contact w in
  updatesSent w' = updatesSent w
  /\ store w' = store w
  /\ toasts w' = toasts w ++ [validationToast]
  /\ variant validationToast = "destructive"
  /\ saving w' = saving w
  /\ dialogOpen w' = dialogOpen w
  /\ contactUpdatedCalls w' = contactUpdatedCalls w.
Proof.
  intros Hmissing w'. unfold w', handleSave.
  assert (Hguard : isEmpty (name form) || isEmpty (whatsapp form)
                   || isEmpty (neighborhood form) = true).
  { rewrite !orb_true_iff, !isEmpty_true. tauto. }
  rewrite Hguard. simpl. repeat split.
Qed.

(** With the three required fields filled the update is sent, once. *)
Lemma save_sends_update (hasCallback : bool) (form : Form) (contact : Contact)
    (w : World Store) :
  name form <> "" -> whatsapp form <> "" -> neighborhood form <> "" ->
  updatesSent (handleSave updateContact hasCallback form contact w)
  = updatesSent w ++ [(contact_id contact, updateData form contact)].
Proof.
  intros Hn Hw Hb. unfold handleSave.
  apply isEmpty_false in Hn, Hw, Hb. rewrite Hn, Hw, Hb. simpl.
  unfold awaitUpdate. simpl.
  destruct (updateContact _ _ _) as [store' fulfilled].
  destruct fulfilled, hasCallback; reflexivity.
Qed.

Lemma newStatus_member form contact :
  cell_id form <> "" -> contact_cell_id contact <> Some (cell_id form) ->
  newStatus form contact = "member".
Proof.
  intros Hc Hd. unfold newStatus. apply isEmpty_false in Hc. rewrite Hc.
  destruct (strictEq (contact_cell_id contact) (cell_id form)) eqn:E;
    [|reflexivity].
  apply strictEq_true in E. contradiction.
Qed.

Lemma newStatus_pending form contact :
  cell_id form = "" -> truthy (contact_cell_id contact) = true ->
  newStatus form contact = "pending".
Proof.
  intros Hc Ht. unfold newStatus. apply isEmpty_true in Hc.
  now rewrite Hc, Ht.
Qed.

Lemma newStatus_unchanged form contact :
  ~ (cell_id form <> "" /\ contact_cell_id contact <> Some (cell_id form)) ->
  ~ (cell_id form = "" /\ truthy (contact_cell_id contact) = true) ->
  newStatus form contact = contact_status contact.
Proof.
  intros H1 H2. unfold newStatus.
  destruct (isEmpty (cell_id form)) eqn:Hc; simpl.
  - apply isEmpty_true in Hc.
    destruct (truthy (contact_cell_id contact)); [|reflexivity].
    exfalso. apply H2. auto.
  - apply isEmpty_false in Hc.
    destruct (strictEq (contact_cell_id contact) (cell_id form)) eqn:E;
      [reflexivity|].
    exfalso. apply H1. split; [exact Hc|].
    intros Heq. apply strictEq_true in Heq. congruence.
Qed.

(** C9.  With the three required fields filled, saving sends one update
    for the contact, whose status is "member" when the cell of the form
    is not empty and differs from the current cell of the contact,
    "pending" when the cell of the form is empty and the contact has a
    cell, and the current status of the contact in every other case. *)
Theorem save_status_transition (hasCallback : bool) (form : Form)
    (contact : Contact) (w : World Store) :
  name form <> "" -> whatsapp form <> "" -> neighborhood form <> "" ->
  exists data,
    updatesSent (handleSave updateContact hasCallback form contact w)
    = updatesSent w ++ [(contact_id contact, data)]
    /\ (cell_id form <> "" -> contact_cell_id contact <> Some (cell_id form) ->
        u_status data = "member")
    /\ (cell_id form = "" -> truthy (contact_cell_id contact) = true ->
        u_status data = "pending")
    /\ (~ (cell_id form <> "" /\ contact_cell_id contact <> Some (cell_id form)) ->
        ~ (cell_id form = "" /\ truthy (contact_cell_id contact) = true) ->
        u_status data = contact_status contact).
Proof.
  intros Hn Hw Hb. exists (updateData form contact).
  split; [now apply save_sends_update|]. simpl.
  split; [apply newStatus_member|].
  split; [apply newStatus_pending | apply newStatus_unchanged].
Qed.
End Handler.

Lemma save_rejects_missing_fields_witness :
  let w' := handleSave sampleUpdate true (sampleForm "Ana" "" "Centro" "c1")
              (sampleContact None "pending") sampleWorld in
  updatesSent w' = [] /\ store w' = [] /\ toasts w' = [validationToast].
Proof.
  destruct (save_rejects_missing_fields _ sampleUpdate true
              (sampleForm "Ana" "" "Centro" "c1") (sampleContact None "pending")
              sampleWorld) as (Hu & Hs & Ht & _).
  { right; left; reflexivity. }
  split; [exact Hu|]. split; [exact Hs | exact Ht].
Defined.

Lemma save_status_transition_witness :
  exists data,
    updatesSent (handleSave sampleUpdate true (sampleForm "Ana" "55" "Centro" "c1")
                   (sampleContact None "pending") sampleWorld)
    = [("k1", data)]
    /\ u_status data = "member".
Proof.
  destruct (save_status_transition _ sampleUpdate true
              (sampleForm "Ana" "55" "Centro" "c1") (sampleContact None "pending")
              sampleWorld) as (data & Hsent & Hmember & _);
    [discriminate | discriminate | discriminate |].
  exists data. split; [exact Hsent|].
  apply Hmember; discriminate.
Defined.

Example save_keeps_status :
  List.map (fun u => u_status (snd u))
    (updatesSent (handleSave sampleUpdate false (sampleForm "Ana" "55" "Centro" "c1")
                    (sampleContact (Some "c1") "visitor") sampleWorld))
  = ["visitor"].
Proof. reflexivity. Qed.

Example save_clears_cell :
  List.map (fun u => u_status (snd u))
    (updatesSent (handleSave sampleUpdate false (sampleForm "Ana" "55" "Centro" "")
                    (sampleContact (Some "c1") "member") sampleWorld))
  = ["pending"].
Proof. reflexivity. Qed.

(** ** The payload of the update *)

Lemma orNull_not_empty s : orNull (Some s) <> Some "".
Proof.
  unfold orNull. simpl. destruct (String.eqb s "") eqn:E; simpl; [discriminate|].
  apply String.eqb_neq in E. congruence.
Qed.

(** The update never carries an empty string where the contact has no
    value: the city, the birth date, the cell, the referrer and the leader
    are null or a non-empty string, and the referrer is never the
    "no-referral" entry of the select. *)
Theorem updateData_normalised (form : Form) (contact : Contact) :
  let data := updateData form contact in
  u_city_id data <> Some ""
  /\ u_birth_date data <> Some ""
  /\ u_cell_id data <> Some ""
  /\ u_referred_by data <> Some ""
  /\ u_referred_by data <> Some "no-referral"
  /\ u_leader_id data <> Some ""
  /\ (u_cell_id data = None <-> cell_id form = "").
Proof.
  simpl. repeat split; try apply orNull_not_empty.
  - unfold referredByValue, isEmpty.
    destruct (String.eqb (referred_by form) "") eqn:E; simpl; [discriminate|].
    destruct (String.eqb (referred_by form) "no-referral"); simpl; [discriminate|].
    apply String.eqb_neq in E. congruence.
  - unfold referredByValue, isEmpty.
    destruct (String.eqb (referred_by form) "") eqn:E; simpl; [discriminate|].
    destruct (String.eqb (referred_by form) "no-referral") eqn:E2; simpl;
      [discriminate|].
    apply String.eqb_neq in E2. congruence.
  - unfold leaderIdValue, isEmpty.
    destruct (String.eqb (leader_id form) "") eqn:E; simpl; [discriminate|].
    apply String.eqb_neq in E. congruence.
  - unfold orNull. simpl. destruct (String.eqb (cell_id form) "") eqn:E; simpl.
    + intros _. now apply String.eqb_eq.
    + discriminate.
  - intros ->. reflexivity.
Qed.

(** ** Loading the form and saving it *)

Lemma orElse_truthy v : truthy v = true -> Some (orElse v "") = v /\ orElse v "" <> "".
Proof.
  intros H. apply truthy_Some_inv in H as (s & -> & Hs). simpl.
  apply String.eqb_neq in Hs. rewrite Hs. apply String.eqb_neq in Hs. auto.
Qed.

(** A form loaded from the contact keeps the status of the contact. *)
Lemma newStatus_loaded (c : ContactProps) nbs :
  newStatus (formOf c nbs) (core c) = contact_status (core c).
Proof.
  unfold newStatus, formOf, isEmpty. simpl.
  destruct (contact_cell_id (core c)) as [k|]; simpl; [|reflexivity].
  destruct (String.eqb k "") eqn:E; simpl; [reflexivity|].
  rewrite E, String.eqb_refl. reflexivity.
Qed.

Section Outcomes.
Variable Store : Type.
Variable updateContact : string -> UpdateData -> Store -> Store * bool.

(** When no callback throws, the handler with callbacks is [handleSave]. *)
Lemma handleSaveWith_returns (hasCallback : bool) (form : Form) (contact : Contact)
    (w : World Store) :
  handleSaveWith updateContact (if hasCallback then Some Returns else None) Returns
    form contact w
  = handleSave updateContact hasCallback form contact w.
Proof.
  unfold handleSaveWith, handleSave.
  destruct (isEmpty (name form) || isEmpty (whatsapp form)
            || isEmpty (neighborhood form)); [reflexivity|].
  cbv zeta. destruct (awaitUpdate _ _ _ _ _) as [w2 fulfilled].
  destruct fulfilled, hasCallback; reflexivity.
Qed.

(** Whatever the callbacks do, the update sent is the same. *)
Lemma handleSaveWith_sends (onUpdated : option Outcome) (onClose : Outcome)
    (form : Form) (contact : Contact) (w : World Store) :
  name form <> "" -> whatsapp form <> "" -> neighborhood form <> "" ->
  updatesSent (handleSaveWith updateContact onUpdated onClose form contact w)
  = updatesSent w ++ [(contact_id contact, updateData form contact)].
Proof.
  intros Hn Hw Hb. unfold handleSaveWith.
  apply isEmpty_false in Hn, Hw, Hb. rewrite Hn, Hw, Hb. simpl.
  unfold awaitUpdate. simpl.
  destruct (updateContact _ _ _) as [store' fulfilled].
  destruct fulfilled; [|reflexivity].
  unfold afterUpdate. destruct onUpdated as [[|]|], onClose; reflexivity.
Qed.

(** With the required fields filled, saving sends the update and always
    ends with the saving flag off.  When the update is rejected, the
    contacts are as the update operation left them, the dialog stays as it
    was, the failure notification is added and no callback is called.  When
    the update is fulfilled and the callbacks return, the dialog is closed,
    no notification is added and [onContactUpdated], if given, is called
    once.  When the update is fulfilled and [onContactUpdated] or
    [onOpenChange] throws, the failure notification is added and the dialog
    stays as it was. *)
Theorem save_outcome (onUpdated : option Outcome) (onClose : Outcome)
    (form : Form) (contact : Contact) (w : World Store) :
  name form <> "" -> whatsapp form <> "" -> neighborhood form <> "" ->
  let w' := handleSaveWith updateContact onUpdated onClose form contact w in
  let answer := updateContact (contact_id contact) (updateData form contact) (store w) in
  saving w' = false
  /\ updatesSent w' = updatesSent w ++ [(contact_id contact, updateData form contact)]
  /\ (snd answer = false ->
      store w' = fst answer
      /\ dialogOpen w' = dialogOpen w
      /\ toasts w' = toasts w ++ [updateFailedToast]
      /\ contactUpdatedCalls w' = contactUpdatedCalls w)
  /\ (snd answer = true -> onUpdated <> Some Throws -> onClose = Returns ->
      dialogOpen w' = false
      /\ toasts w' = toasts w
      /\ contactUpdatedCalls w'
         = (contactUpdatedCalls w
            + match onUpdated with Some _ => 1 | None => 0 end)%nat)
  /\ (snd answer = true -> onUpdated = Some Throws \/ onClose = Throws ->
      dialogOpen w' = dialogOpen w
      /\ toasts w' = toasts w ++ [updateFailedToast]).
Proof.
  intros Hn Hw Hb w' answer.
  split; [|split; [now apply handleSaveWith_sends|]].
  - unfold w', handleSaveWith.
    destruct (isEmpty (name form) || isEmpty (whatsapp form)
              || isEmpty (neighborhood form)) eqn:E.
    + exfalso. apply isEmpty_false in Hn, Hw, Hb. rewrite Hn, Hw, Hb in E.
      discriminate.
    + cbv zeta. destruct (awaitUpdate _ _ _ _ _) as [w2 fulfilled]. reflexivity.
  - unfold w', answer, handleSaveWith.
    apply isEmpty_false in Hn, Hw, Hb. rewrite Hn, Hw, Hb. simpl.
    unfold awaitUpdate. simpl.
    destruct (updateContact _ _ _) as [store' fulfilled]. simpl.
    split; [|split].
    + intros ->. repeat split.
    + intros -> Hup ->. unfold afterUpdate.
      destruct onUpdated as [[|]|]; simpl;
        [repeat split; lia | now contradiction Hup | repeat split; lia].
    + intros -> Hthrows. unfold afterUpdate.
      destruct onUpdated as [[|]|], onClose; simpl;
        try (split; reflexivity); destruct Hthrows; discriminate.
Qed.

(** Opening the dialog on a contact that has an id, a name, a whatsapp
    number and a neighborhood loads the form without notification, and
    saving the loaded form without editing sends one update, which leaves
    the status as it is and carries the contact's own name, number,
    neighborhood, cell and baptized flag. *)
Theorem save_after_load (hasCallback : bool) (c : ContactProps)
    (neighborhoods : option (list Neighborhood)) (form0 : Form) (w : World Store) :
  contact_id (core c) <> "" ->
  truthy (p_name c) = true ->
  truthy (p_whatsapp c) = true ->
  truthy (p_neighborhood c) = true ->
  let loaded := loadForm (Some c) true neighborhoods form0 in
  snd loaded = []
  /\ exists data,
       updatesSent (handleSave updateContact hasCallback (fst loaded) (core c) w)
       = updatesSent w ++ [(contact_id (core c), data)]
       /\ u_status data = contact_status (core c)
       /\ u_cell_id data = orNull (contact_cell_id (core c))
       /\ Some (u_name data) = p_name c
       /\ Some (u_whatsapp data) = p_whatsapp c
       /\ Some (u_neighborhood data) = p_neighborhood c
       /\ u_baptized data = orFalse (p_baptized c).
Proof.
  intros Hid Hn Hw Hb loaded. unfold loaded, loadForm, missingFields. simpl.
  apply isEmpty_false in Hid. rewrite Hid, Hn. simpl. split; [reflexivity|].
  destruct (orElse_truthy _ Hn) as [Hn1 Hn2].
  destruct (orElse_truthy _ Hw) as [Hw1 Hw2].
  destruct (orElse_truthy _ Hb) as [Hb1 Hb2].
  exists (updateData (formOf c neighborhoods) (core c)).
  split; [now apply save_sends_update|]. simpl.
  split; [apply newStatus_loaded|].
  split; [|auto].
  unfold orNull. destruct (contact_cell_id (core c)) as [k|]; simpl; [|reflexivity].
  destruct (String.eqb k "") eqn:E; simpl; [reflexivity | now rewrite E].
Qed.

(** Choosing a city empties the neighborhood, so saving right after is
    refused with the validation notification; once a neighborhood is chosen
    again the update is sent, with the chosen city and neighborhood. *)
Theorem city_change_blocks_save (hasCallback : bool) (city nb : string)
    (form : Form) (contact : Contact) (w : World Store) :
  handleSave updateContact hasCallback (onCityChange city form) contact w
  = toast Store validationToast w
  /\ (name form <> "" -> whatsapp form <> "" ->
      nb <> "" -> nb <> "empty-neighborhood" -> city <> "" -> city <> "empty-city" ->
      exists data,
        updatesSent (handleSave updateContact hasCallback
                       (onNeighborhoodChange nb (onCityChange city form)) contact w)
        = updatesSent w ++ [(contact_id contact, data)]
        /\ u_city_id data = Some city /\ u_neighborhood data = nb).
Proof.
  split.
  - unfold handleSave, onCityChange. simpl.
    now rewrite orb_true_r.
  - intros Hn Hw Hnb1 Hnb2 Hc1 Hc2.
    apply String.eqb_neq in Hnb2, Hc2.
    eexists. split.
    + apply save_sends_update; simpl; [exact Hn | exact Hw | now rewrite Hnb2].
    + simpl. rewrite Hnb2, Hc2. split; [|reflexivity].
      unfold orNull. simpl. apply String.eqb_neq in Hc1. now rewrite Hc1.
Qed.
End Outcomes.

Lemma save_outcome_witness :
  let w' := handleSaveWith sampleUpdate (Some Throws) Returns
              (sampleForm "Ana" "55" "Centro" "c1")
              (sampleContact None "pending") sampleWorld in
  saving w' = false /\ dialogOpen w' = true /\ toasts w' = [updateFailedToast].
Proof.
  destruct (save_outcome _ sampleUpdate (Some Throws) Returns
              (sampleForm "Ana" "55" "Centro" "c1")
              (sampleContact None "pending") sampleWorld)
    as (Hs & _ & _ & _ & Hthrows); [discriminate | discriminate | discriminate |].
  destruct (Hthrows eq_refl (or_introl eq_refl)) as (Hd & Ht).
  split; [exact Hs|]. split; [exact Hd | exact Ht].
Defined.

Lemma save_after_load_witness :
  exists data,
    updatesSent (handleSave sampleUpdate false
                   (fst (loadForm (Some (sampleProps "k1" "Ana" None)) true
                           (Some sampleNeighborhoods) (sampleForm "" "" "" "")))
                   (core (sampleProps "k1" "Ana" None)) sampleWorld)
    = [("k1", data)]
    /\ u_status data = "visitor" /\ u_cell_id data = Some "c1".
Proof.
  destruct (save_after_load _ sampleUpdate false (sampleProps "k1" "Ana" None)
              (Some sampleNeighborhoods) (sampleForm "" "" "" "") sampleWorld)
    as (_ & data & Hsent & Hst & Hcell & _);
    [discriminate | reflexivity | reflexivity | reflexivity |].
  exists data. split; [exact Hsent|]. split; [exact Hst | exact Hcell].
Defined.

Lemma city_change_blocks_save_witness :
  exists data,
    updatesSent (handleSave sampleUpdate false
                   (onNeighborhoodChange "Norte"
                      (onCityChange "city2" (sampleForm "Ana" "55" "Centro" "")))
                   (sampleContact None "pending") sampleWorld)
    = [("k1", data)]
    /\ u_city_id data = Some "city2" /\ u_neighborhood data = "Norte".
Proof.
  destruct (city_change_blocks_save _ sampleUpdate false "city2" "Norte"
              (sampleForm "Ana" "55" "Centro" "") (sampleContact None "pending")
              sampleWorld) as [_ H].
  apply H; discriminate.
Defined.

(** ** A contact without id or name *)

(** A contact that lacks its id or its name gets the error view instead of
    the form, whether the dialog is open or not; when the dialog is open,
    the load effect leaves the form as it was and raises one destructive
    notification for such a contact, and loads the form without
    notification for a contact that has both, which never gets the error
    view.  When the dialog is closed the effect does nothing: the form is
    left as it was and no notification is raised, whatever the contact. *)
Theorem incomplete_contact (c : ContactProps)
    (neighborhoods : option (list Neighborhood)) (citiesLoaded : bool) (form : Form) :
  (contact_id (core c) = "" \/ truthy (p_name c) = false ->
   view (Some c) neighborhoods citiesLoaded = IncompleteView
   /\ exists t, loadForm (Some c) true neighborhoods form = (form, [t])
                /\ variant t = "destructive")
  /\ (contact_id (core c) <> "" -> truthy (p_name c) = true ->
      view (Some c) neighborhoods citiesLoaded <> IncompleteView
      /\ loadForm (Some c) true neighborhoods form = (formOf c neighborhoods, []))
  /\ (forall contact, loadForm contact false neighborhoods form = (form, []))
  /\ (forall open, loadForm None open neighborhoods form = (form, [])).
Proof.
  unfold view, loadForm, missingFields. simpl. split; [|split; [|split]].
  - intros [Hid|Hn].
    + apply isEmpty_true in Hid. rewrite Hid. simpl. split; [reflexivity|].
      eexists. split; reflexivity.
    + rewrite Hn, orb_true_r. split; [reflexivity|].
      destruct (isEmpty (contact_id (core c))); simpl; eexists; split; reflexivity.
  - intros Hid Hn. apply isEmpty_false in Hid. rewrite Hid, Hn. simpl.
    split; [|reflexivity].
    destruct neighborhoods, citiesLoaded; discriminate.
  - intros [k|]; reflexivity.
  - intros open. reflexivity.
Qed.

Lemma incomplete_contact_witness :
  view (Some (sampleProps "" "Ana" None)) (Some sampleNeighborhoods) true
  = IncompleteView.
Proof.
  destruct (incomplete_contact (sampleProps "" "Ana" None) (Some sampleNeighborhoods)
              true (sampleForm "" "" "" "")) as [H _].
  destruct H as [Hv _]; [now left | exact Hv].
Defined.

(** ** The city found through the neighborhood *)

(** For a contact without city whose neighborhood is found, by name, among
    the neighborhoods, the loaded form takes the city of that neighborhood,
    and the neighborhood is one of those offered for that city. *)
Theorem resolved_city_offers_neighborhood (c : ContactProps)
    (neighborhoods : list Neighborhood) (n city : string) (nb : Neighborhood) :
  truthy (p_city_id c) = false ->
  p_neighborhood c = Some n -> n <> "" ->
  List.find (fun k => String.eqb (nb_name k) n) neighborhoods = Some nb ->
  nb_city_id nb = Some city -> city <> "" ->
  let form := formOf c (Some neighborhoods) in
  city_id form = city
  /\ neighborhood form = nb_name nb
  /\ In nb (filteredNeighborhoods form neighborhoods).
Proof.
  intros Hcity Hn Hne Hfind Hnb Hc form.
  assert (Hcid : city_id form = city).
  { unfold form, formOf, resolveCity. simpl.
    assert (Hempty : orElse (p_city_id c) "" = "").
    { destruct (p_city_id c) as [k|]; simpl in *; [|reflexivity].
      destruct (String.eqb k ""); [reflexivity | discriminate]. }
    rewrite Hempty, Hn. simpl.
    apply String.eqb_neq in Hne. rewrite Hne. simpl.
    destruct neighborhoods as [|x xs]; [discriminate|].
    rewrite Hfind, Hnb. simpl. apply String.eqb_neq in Hc. now rewrite Hc. }
  apply find_some in Hfind as [Hin Hname]. apply String.eqb_eq in Hname.
  split; [exact Hcid|]. split.
  - unfold form, formOf. simpl. rewrite Hn. simpl.
    apply String.eqb_neq in Hne. now rewrite Hne, Hname.
  - unfold filteredNeighborhoods. rewrite Hcid.
    apply isEmpty_false in Hc. rewrite Hc. simpl.
    apply filter_In. split; [exact Hin|]. now apply strictEq_true.
Qed.

Lemma resolved_city_offers_neighborhood_witness :
  city_id (formOf (sampleProps "k1" "Ana" None) (Some sampleNeighborhoods)) = "city1".
Proof.
  destruct (resolved_city_offers_neighborhood (sampleProps "k1" "Ana" None)
              sampleNeighborhoods "Centro" "city1"
              {| nb_id := "n2"; nb_name := "Centro"; nb_city_id := Some "city1" |})
    as [H _]; [reflexivity | reflexivity | discriminate | reflexivity
               | reflexivity | discriminate | exact H].
Defined.

(** ** Buttons *)

(** The two extra buttons are never shown together; and whenever the
    transfer button is shown, the transfer sends the cell of the form with
    the status "member", which is also the status a save would send. *)
Theorem transfer_button (context : DialogContext) (form : Form) (contact : Contact) :
  showTransformButton context contact && showTransferButton form contact = false
  /\ (showTransferButton form contact = true ->
      transferPayload form = (Some (cell_id form), "member")
      /\ newStatus form contact = "member").
Proof.
  split.
  - unfold showTransformButton, showTransferButton, isVisitor, isMember.
    destruct context; [|reflexivity].
    destruct (String.eqb (contact_status contact) "visitor") eqn:Ev; [|reflexivity].
    apply String.eqb_eq in Ev. rewrite Ev. reflexivity.
  - unfold showTransferButton. rewrite !andb_true_iff, !negb_true_iff.
    intros [[_ Hdiff] Hcell]. unfold transferPayload, newStatus, orNull.
    simpl. unfold isEmpty in *. rewrite Hcell, Hdiff. simpl. split; reflexivity.
Qed.

Lemma transfer_button_witness :
  transferPayload (sampleForm "Ana" "55" "Centro" "c2") = (Some "c2", "member")
  /\ newStatus (sampleForm "Ana" "55" "Centro" "c2") (sampleContact (Some "c1") "member")
     = "member".
Proof.
  destruct (transfer_button ContactsContext (sampleForm "Ana" "55" "Centro" "c2")
              (sampleContact (Some "c1") "member")) as [_ H].
  apply H. reflexivity.
Defined.

End EditContactDialogFacts.
